(** * coroutine-cplus: a shallow embedding of the demonstration programs

  Each translation unit of the repository is embedded in a module of its
  own: [RecvSender] (src/recv_sender.cpp, the sender/receiver protocol,
  [retry] and [fail_3]), [SimpleExecutionContext] (the cooperative queue),
  [ThreadPool] and [CountLines] (src/thread_pool.cpp), [AllProp]
  (src/all_prop.cpp, callbacks and executors) and [PresProp]
  (src/pres_prop.cpp, the promise pipeline).  The module [Cxx] holds what
  they share: exceptions, and a monad for statements that may complete,
  throw, or call std::terminate. *)

From Stdlib Require Import ZArith String List Lia.
From Stdlib.Strings Require Byte.
From stdpp Require Import base option list gmap strings.

Set Default Proof Using "Type".

(* ===================================================================== *)
(** * C++ statements: state, exceptions, std::terminate                   *)
(* ===================================================================== *)

Module Cxx.

(** The exception objects the programs create or can observe. *)
#[warnings="-register-all"] Inductive exception : Type :=
| runtime_error (what : string)
| broken_promise
| promise_already_satisfied
| callback_invocation_error (what : string) (nested : option exception)
| user_exception (tag : Z).

(** How the execution of a statement in state [st] ends. *)
Inductive result (St A : Type) : Type :=
| Normal (a : A) (st : St)          (* ran to completion *)
| Thrown (e : exception) (st : St)  (* left by an exception *)
| Terminated (st : St)              (* std::terminate was called *)
| Blocked (st : St)                 (* waits for ever *)
| Undefined                         (* undefined behaviour *)
| OutOfFuel.                        (* the model's step budget ran out *)
Arguments Normal {St A} a st.
Arguments Thrown {St A} e st.
Arguments Terminated {St A} st.
Arguments Blocked {St A} st.
Arguments Undefined {St A}.
Arguments OutOfFuel {St A}.

Definition M (St A : Type) : Type := St -> result St A.

Definition ret {St A} (a : A) : M St A := fun st => Normal a st.

Definition bind {St A B} (c : M St A) (k : A -> M St B) : M St B :=
  fun st =>
    match c st with
    | Normal a st' => k a st'
    | Thrown e st' => Thrown e st'
    | Terminated st' => Terminated st'
    | Blocked st' => Blocked st'
    | Undefined => Undefined
    | OutOfFuel => OutOfFuel
    end.

Definition throw {St A} (e : exception) : M St A := fun st => Thrown e st.

(** [std::terminate()] *)
Definition terminate {St A} : M St A := fun st => Terminated st.

Definition undefined {St A} : M St A := fun _ => Undefined.

Definition out_of_fuel {St A} : M St A := fun _ => OutOfFuel.

Definition get {St} : M St St := fun st => Normal st st.

Definition modify {St} (f : St -> St) : M St unit := fun st => Normal tt (f st).

(** [try { c } catch (...) { h(std::current_exception()) }] *)
Definition try_catch {St A} (c : M St A) (h : exception -> M St A) : M St A :=
  fun st =>
    match c st with
    | Thrown e st' => h e st'
    | r => r
    end.

(** A function declared [noexcept]: an exception that would leave it
    calls std::terminate. *)
Definition noexcept {St A} (c : M St A) : M St A :=
  fun st =>
    match c st with
    | Thrown _ st' => Terminated st'
    | r => r
    end.

(** Run a computation on a component [W] of a larger state [St]. *)
Definition zoom {St W A} (proj : St -> W) (upd : W -> St -> St)
    (c : M W A) : M St A :=
  fun st =>
    match c (proj st) with
    | Normal a w => Normal a (upd w st)
    | Thrown e w => Thrown e (upd w st)
    | Terminated w => Terminated (upd w st)
    | Blocked w => Blocked (upd w st)
    | Undefined => Undefined
    | OutOfFuel => OutOfFuel
    end.

Definition is_thrown {St A} (r : result St A) : bool :=
  match r with Thrown _ _ => true | _ => false end.

Module Notations.
Notation "'do' x <- c ; k" := (bind c (fun x => k))
  (at level 10, x name, c at level 100, k at level 200,
   format "'[v' 'do'  x  <-  c ; '/' k ']'").
Notation "c ;; k" := (bind c (fun _ => k))
  (at level 100, k at level 200, right associativity).
End Notations.

End Cxx.

(* ===================================================================== *)
(** * src/recv_sender.cpp: senders, receivers, retry, fail_3              *)
(* ===================================================================== *)

Module RecvSender.
Import Cxx Cxx.Notations.

(** [::puts], declared extern and noexcept: the state of every
    computation that prints has a standard output. *)
Class Stdout (W : Type) := puts_to : string -> W -> W.

Definition puts {W} `{Stdout W} (s : string) : M W unit := modify (puts_to s).

#[export] Instance stdout_lines : Stdout (list string) :=
  fun s out => out ++ [s].

#[export] Instance stdout_snd {L W} `{Stdout W} : Stdout (L * W) :=
  fun s st => (st.1, puts_to s st.2).

(** A receiver: the three completion channels, as member functions acting
    on the program state [W].  [V] is the type of the value it accepts and
    [E] the type of its error token. *)
Record receiver (V E W : Type) : Type := Receiver {
  set_value_ : V -> M W unit;
  set_error_ : E -> M W unit;
  set_done_ : M W unit
}.
Arguments Receiver {V E W} _ _ _.
Arguments set_value_ {V E W} _ _.
Arguments set_error_ {V E W} _ _.
Arguments set_done_ {V E W} _.

(** The customization points of [_receiver_cpos_].  [set_value] is
    noexcept exactly when the member is; [set_error] and [set_done] are
    [noexcept]. *)
Definition set_value {V E W} (r : receiver V E W) (v : V) : M W unit :=
  set_value_ r v.
Definition set_error {V E W} (r : receiver V E W) (e : E) : M W unit :=
  noexcept (set_error_ r e).
Definition set_done {V E W} (r : receiver V E W) : M W unit :=
  noexcept (set_done_ r).

(** [_sink]: accepts any value and does nothing; error and done call
    std::terminate. *)
Definition sink {V E W} : receiver V E W :=
  Receiver (fun _ => ret tt) (fun _ => terminate) terminate.

(** ** fail_3 *)

Definition INT_MAX : Z := 2147483647.

Record fail_3 : Type := Fail3 { count_ : Z }.

(** [fail_3::_op<R>]: the count captured at connect.  The receiver [r_]
    it also stores is handed to [start] in the model. *)
Record fail_3_op : Type := Fail3Op { op_count_ : Z }.

(** What [fail_3::_op::start] passes to [set_error]: the int 42, or the
    exception_ptr of its handler. *)
Inductive fail_3_error : Type :=
| error_int (n : Z)
| error_exception (e : exception).

(** [fail_3::connect(R r) &]: [_op<R>{++count_, r}].  Incrementing an int
    that holds INT_MAX is undefined. *)
Definition fail_3_connect : M fail_3 fail_3_op :=
  fun s =>
    if decide (count_ s = INT_MAX) then Undefined
    else Normal (Fail3Op (count_ s + 1)) (Fail3 (count_ s + 1)).

(** [fail_3::_op::start() && noexcept try { ... } catch(...) { ... }] *)
Definition fail_3_op_start {W} `{Stdout W}
    (o : fail_3_op) (r_ : receiver Z fail_3_error W) : M W unit :=
  noexcept
    (try_catch
       (if decide (op_count_ o > 3)%Z
        then puts "success" ;; set_value r_ (op_count_ o)
        else puts "error" ;; set_error r_ (error_int 42))
       (fun e => set_error r_ (error_exception e))).

(** ** The retry algorithm *)

Section retry.
(** [S]: the wrapped sender; [O]: the operation state that connecting it
    to a [_retry_receiver] yields; [V], [E]: what that operation sends
    on its value and error channels; [W]: the state the outer receiver
    acts on. *)
Context {S O V E W : Type}.

(** [::connect(s_, _retry_receiver<_op, R>{this})]: connects the lvalue
    [s_], which it may modify, and may throw. *)
Variable inner_connect : M S O.

(** [_retry_sender<S>::_op<R>] *)
Record _op : Type := Op {
  s_ : S;
  r_ : receiver V exception W;
  o_ : option O
}.

(** [::start(std::move(o))] of the inner operation state, running in
    the state made of the retry operation and the outer state.  The
    receiver the inner operation was connected to is passed here. *)
Variable inner_start : O -> receiver V E (_op * W) -> M (_op * W) unit.

Definition on_world {A} (c : M W A) : M (_op * W) A :=
  zoom snd (fun w st => (st.1, w)) c.

Definition on_sender {A} (c : M S A) : M (_op * W) A :=
  zoom (fun st => s_ st.1)
       (fun s st => (Op s (r_ st.1) (o_ st.1), st.2)) c.

Definition set_o (o : option O) : M (_op * W) unit :=
  modify (fun st => (Op (s_ st.1) (r_ st.1) o, st.2)).

Definition get_r : M (_op * W) (receiver V exception W) :=
  do st <- get; ret (r_ st.1).

(** [*o_]: reading an empty optional is undefined. *)
Definition deref_o : M (_op * W) O :=
  do st <- get;
  match o_ st.1 with
  | Some o => ret o
  | None => undefined
  end.

(** [_op::_connect()] converted into the optional's value. *)
Definition _connect : M (_op * W) O := on_sender inner_connect.

(** [o_.emplace(_connect())]: the old operation state is destroyed
    first; when the construction throws the optional stays empty. *)
Definition emplace_o : M (_op * W) unit :=
  set_o None ;; do o <- _connect ; set_o (Some o).

(** [_retry_receiver<O, R>], given what [o_->_retry()] does. *)
Definition _retry_receiver_of (retry : M (_op * W) unit)
    : receiver V E (_op * W) :=
  Receiver
    (fun v => do r <- get_r ; on_world (set_value r v))
    (fun _ => noexcept retry)
    (noexcept (do r <- get_r ; on_world (set_done r))).

(** [_op::_retry() noexcept try { ... } catch(...) { ... }].  The
    recursion through the receiver of the new operation state is
    bounded by [fuel]. *)
Fixpoint _retry (fuel : nat) : M (_op * W) unit :=
  match fuel with
  | 0 => out_of_fuel
  | Datatypes.S fuel' =>
      noexcept
        (try_catch
           (emplace_o ;;
            do o <- deref_o ;
            noexcept (inner_start o (_retry_receiver_of (_retry fuel'))))
           (fun e => do r <- get_r ;
                     on_world (set_error r e)))
  end.

Definition _retry_receiver (fuel : nat) : receiver V E (_op * W) :=
  _retry_receiver_of (_retry fuel).

(** [_op::start() && noexcept] *)
Definition _op_start (fuel : nat) : M (_op * W) unit :=
  noexcept (do o <- deref_o ;
            noexcept (inner_start o (_retry_receiver fuel))).

(** [_retry_sender::connect(R r) &&], that is the constructor
    [_op(S s, R r): s_(s), r_(r), o_{_connect()}]. *)
Definition _retry_sender_connect (s : S) (r : receiver V exception W)
    : M W _op :=
  fun w =>
    match (emplace_o ;; do st <- get ; ret st.1) (Op s r None, w) with
    | Normal op st => Normal op st.2
    | Thrown e st => Thrown e st.2
    | Terminated st => Terminated st.2
    | Blocked st => Blocked st.2
    | Undefined => Undefined
    | OutOfFuel => OutOfFuel
    end.

(** [::start(op)] for a temporary operation state [op]. *)
Definition start_temporary {A} (op : _op) (c : M (_op * W) A) : M W A :=
  fun w =>
    match c (op, w) with
    | Normal a st => Normal a st.2
    | Thrown e st => Thrown e st.2
    | Terminated st => Terminated st.2
    | Blocked st => Blocked st.2
    | Undefined => Undefined
    | OutOfFuel => OutOfFuel
    end.

End retry.

Arguments _op : clear implicits.
Arguments Op {S O V W} _ _ _.

(** [fail_3 s; ::start(::connect(retry(s), r));] for a receiver [r], with
    the inner operations started by [inner_start]. *)
Definition start_retry_fail_3 {W} `{Stdout W}
    (inner_start : fail_3_op -> receiver Z fail_3_error (_op fail_3 fail_3_op Z W * W)
                   -> M (_op fail_3 fail_3_op Z W * W) unit)
    (r : receiver Z exception W) (fuel : nat) : M W unit :=
  let s := Fail3 0 in
  do op <- _retry_sender_connect fail_3_connect s r ;
  start_temporary op (_op_start fail_3_connect inner_start fuel).

(** [int main() { fail_3 s; ::start(::connect(retry(s), sink)); }] *)
Definition main {W} `{Stdout W} (fuel : nat) : M W unit :=
  start_retry_fail_3 fail_3_op_start sink fuel.

End RecvSender.

(* ===================================================================== *)
(** * simple_execution_context: the cooperative single-queue scheduler    *)
(* ===================================================================== *)

(** The class appears twice with the same queue: in src/recv_sender.cpp
    (nodes are [task_base] objects, [drain] calls [t->execute()]) and in
    src/unnamed/part_001 (nodes are [awaiter] objects).  [enqueue] and
    [drain] are the same statements in both. *)
Module SimpleExecutionContext.

(** The address of a [task_base] (an [awaiter]). *)
Abbreviation ptr := positive (only parsing).

(** [head], and the [next] member of every node that has been written;
    [None] is [nullptr]. *)
Record simple_execution_context : Type := Context {
  head : option ptr;
  next : gmap positive (option ptr)
}.

(** A default-constructed context: [head = nullptr]. *)
Definition empty_context : simple_execution_context := Context None ∅.

(** [void enqueue(task_base *t) noexcept { t->next = std::exchange(head, t); }] *)
Definition enqueue (t : ptr) (ctx : simple_execution_context)
    : simple_execution_context :=
  Context (Some t) (<[t := head ctx]> (next ctx)).

(** How a call of [drain] stands after some iterations of its loop. *)
Inductive drain_result : Type :=
| drained (executed : list ptr) (ctx : simple_execution_context)
    (* the loop has exited: [head == nullptr] *)
| still_draining (executed : list ptr) (ctx : simple_execution_context)
    (* iterations remain *)
| undefined_read (executed : list ptr).
    (* [head->next] read from a node whose [next] was never written *)

Definition executed_of (r : drain_result) : list ptr :=
  match r with
  | drained tr _ | still_draining tr _ | undefined_read tr => tr
  end.

Section drain.

(** What resuming the continuation held by a node does to the context: the
    nodes it enqueues, in order, before control returns to [drain] (a
    coroutine that awaits [schedule()] again, or starts operations that
    do). *)
Variable resume : ptr -> list ptr.

(** [t->execute()] *)
Definition execute (t : ptr) (ctx : simple_execution_context)
    : simple_execution_context :=
  foldl (fun c n => enqueue n c) ctx (resume t).

(** [drain]: at most [fuel] iterations of
    [while (head != nullptr) { t = std::exchange(head, head->next); t->execute(); }],
    with the nodes executed so far, in order. *)
Fixpoint drain (fuel : nat) (ctx : simple_execution_context)
    (executed : list ptr) : drain_result :=
  match head ctx with
  | None => drained executed ctx
  | Some t =>
      match fuel with
      | 0 => still_draining executed ctx
      | S fuel' =>
          match next ctx !! t with
          | None => undefined_read executed
          | Some n =>
              drain fuel' (execute t (Context n (next ctx))) (executed ++ [t])
          end
      end
  end.

End drain.

End SimpleExecutionContext.

(* ===================================================================== *)
(** * src/thread_pool.cpp: count_lines                                    *)
(* ===================================================================== *)

Module CountLines.
Import Cxx Cxx.Notations.

#[export] Instance byte_eq_decision : EqDecision Byte.byte := Byte.byte_eq_dec.

(** Arithmetic on [std::uint64_t]. *)
Definition wrap64 (z : Z) : Z := z mod 2 ^ 64.

(** [constexpr size_t bufferSize = 4096] *)
Definition bufferSize : Z := 4096.

(** How an asynchronous read completes. *)
Inductive read_completion : Type :=
| bytes_read (n : Z)
| read_failed (e : exception).

(** Modelled from the spec: [cppcoro::read_only_file] is the vendored
    asynchronous I/O facility, not part of the repository.  A file has its
    bytes, and for a read at [offset] of [requested] bytes the facility
    decides how many bytes it actually returns, or fails. *)
Record read_only_file : Type := File {
  contents : list Byte.byte;
  completes : Z -> Z -> read_completion
}.

(** [file.size()] *)
Definition size (file : read_only_file) : Z := Z.of_nat (length (contents file)).

(** Modelled from the spec: [read_only_file::open(ioService, path)] opens an
    existing file and fails otherwise. *)
Definition open (fs : gmap string read_only_file) (path : string)
    : M (list Byte.byte) read_only_file :=
  match fs !! path with
  | Some file => ret file
  | None => throw (runtime_error "open")
  end.

(** Modelled from the spec: [co_await file.read(offset, buffer, byteCount)]
    stores the bytes actually read at the start of the buffer and completes
    with their number.  The state is the reusable buffer. *)
Definition read (file : read_only_file) (offset byteCount : Z)
    : M (list Byte.byte) Z :=
  match completes file offset byteCount with
  | read_failed e => throw e
  | bytes_read n =>
      let data := take (Z.to_nat n) (drop (Z.to_nat offset) (contents file)) in
      modify (fun buffer => data ++ drop (length data) buffer) ;; ret n
  end.

(** [std::count(buffer.get(), buffer.get() + bytesRead, '\n')] *)
Definition count_newlines (buffer : list Byte.byte) (bytesRead : Z) : Z :=
  Z.of_nat (length (filter (fun b => b = Byte.x0a) (take (Z.to_nat bytesRead) buffer))).

(** The [for] loop of [count_lines]. *)
Fixpoint count_lines_loop (fuel : nat) (file : read_only_file)
    (fileSize newlineCount offset : Z) : M (list Byte.byte) Z :=
  if decide (offset < fileSize)%Z then
    match fuel with
    | 0 => out_of_fuel
    | S fuel' =>
        let bytesToRead := Z.min bufferSize (wrap64 (fileSize - offset)) in
        do bytesRead <- read file offset bytesToRead ;
        do buffer <- get ;
        if decide (bufferSize < bytesRead)%Z then undefined
        else
          count_lines_loop fuel' file fileSize
            (wrap64 (newlineCount + count_newlines buffer bytesRead))
            (wrap64 (offset + bytesRead))
    end
  else ret newlineCount.

(** [cppcoro::task<std::uint64_t> count_lines(ioService, path)], started
    with a zero-filled buffer of [bufferSize] bytes. *)
Definition count_lines (fuel : nat) (fs : gmap string read_only_file)
    (path : string) : result (list Byte.byte) Z :=
  (do file <- open fs path ;
   count_lines_loop fuel file (size file) 0 0)
    (replicate (Z.to_nat bufferSize) Byte.x00).

End CountLines.

(* ===================================================================== *)
(** * src/all_prop.cpp: callbacks and invoke_callback                     *)
(* ===================================================================== *)

Module AllProp.
Import Cxx Cxx.Notations.

(** [CallbackSignal]: the members [done()] and [error(E)], both noexcept. *)
Record callback_signal (W : Type) : Type := CallbackSignal {
  done : M W unit;
  error : exception -> M W unit
}.
Arguments CallbackSignal {W} _ _.
Arguments done {W} _.
Arguments error {W} _ _.

(** An [Invocable<Args...>] object [c]: its call operator, whether that
    operator is declared noexcept, and its done/error members when it has
    them (then it is a [Callback]). *)
Record invocable (W Args : Type) : Type := Invocable {
  call_operator : Args -> M W unit;
  is_nothrow_invocable : bool;
  signals : option (callback_signal W)
}.
Arguments Invocable {W Args} _ _ _.
Arguments call_operator {W Args} _ _.
Arguments is_nothrow_invocable {W Args} _.
Arguments signals {W Args} _.

(** [std::invoke(c, args...)] *)
Definition invoke {W Args} (c : invocable W Args) (args : Args) : M W unit :=
  if is_nothrow_invocable c then noexcept (call_operator c args)
  else call_operator c args.

(** Modelled from the spec: [invocation_error_] is declared [extern] and
    defined nowhere in the repository; the comment on its declaration gives
    its message. *)
Definition invocation_error_ : exception := runtime_error "invocation error".

Definition what (e : exception) : string :=
  match e with
  | runtime_error w | callback_invocation_error w _ => w
  | broken_promise => "broken promise"
  | promise_already_satisfied => "promise already satisfied"
  | user_exception _ => "exception"
  end.

(** [callback_invocation_error() noexcept : runtime_error(invocation_error_),
    nested_exception()]: std::nested_exception's constructor captures
    [std::current_exception()]. *)
Definition make_callback_invocation_error (current_exception : option exception)
    : exception :=
  callback_invocation_error (what invocation_error_) current_exception.

(** [try_invoke_callback(f, c, args...) noexcept try { invoke(c, args...); }
    catch (...) { f.error(make_exception_ptr(callback_invocation_error{})); }] *)
Definition try_invoke_callback {W Args} (f : callback_signal W)
    (c : invocable W Args) (args : Args) : M W unit :=
  noexcept
    (try_catch (invoke c args)
       (fun e => noexcept (error f (make_callback_invocation_error (Some e))))).

(** [invoke_callback(c, args...)
    noexcept(is_nothrow_invocable_v<C, Args...> || CallbackSignal<C>)] *)
Definition invoke_callback {W Args} (c : invocable W Args) (args : Args)
    : M W unit :=
  match signals c with
  | Some f => noexcept (try_invoke_callback f c args)
  | None =>
      if is_nothrow_invocable c then noexcept (invoke c args)
      else invoke c args
  end.

(** [inline_executor::execute(C c) { invoke_callback(move(c)); }] *)
Definition inline_executor_execute {W} (c : invocable W unit) : M W unit :=
  invoke_callback c tt.

(** A [Callback<Args...>]: an invocable that has the done and error
    members. *)
Record callback (W Args : Type) : Type := Callback {
  cb_call : Args -> M W unit;
  cb_nothrow : bool;
  cb_signal : callback_signal W
}.
Arguments Callback {W Args} _ _ _.
Arguments cb_call {W Args} _ _.
Arguments cb_nothrow {W Args} _.
Arguments cb_signal {W Args} _.

Definition as_invocable {W Args} (c : callback W Args) : invocable W Args :=
  Invocable (cb_call c) (cb_nothrow c) (Some (cb_signal c)).

(** [compose_callback(c, fn)]: the local struct whose call operator is
    [invoke(c_, invoke(fn_))] and whose noexcept [done] and [error] call
    those of [c_].  [fn] is a nullary invocable with a result. *)
Definition compose_callback {W R} (c : callback W R) (fn : M W R)
    : callback W unit :=
  Callback
    (fun _ => do x <- fn ; invoke (as_invocable c) x)
    false
    (CallbackSignal
       (noexcept (noexcept (done (cb_signal c))))
       (fun ep => noexcept (noexcept (error (cb_signal c) ep)))).

(** An executor: its [execute] member. *)
Record executor (W : Type) : Type := Executor {
  execute_member : invocable W unit -> M W unit
}.
Arguments Executor {W} _.
Arguments execute_member {W} _ _.

(** The customization point [execute(e, c)]: [e.execute(c)]. *)
Definition execute {W} (e : executor W) (c : invocable W unit) : M W unit :=
  execute_member e c.

(** [struct inline_executor] *)
Definition inline_executor {W} : executor W := Executor inline_executor_execute.

(** The loop [for(size_t i = 0; i < n; ++i) op(i, shared);] from index [i]
    with [count] iterations left; [op] takes the state by reference. *)
Fixpoint bulk_loop {W State} (op : nat -> State -> M W State)
    (i count : nat) (shared : State) : M W State :=
  match count with
  | 0 => ret shared
  | S count' => do shared' <- op i shared ; bulk_loop op (S i) count' shared'
  end.

(** [bulk_execute(ex, op, n, sf, c)]: the executor's own [bulk_execute]
    when it has one ([native]), and otherwise one submission of the
    composed callback. *)
Definition bulk_execute {W State} (ex : executor W)
    (native : option ((nat -> State -> M W State) -> nat -> M W State ->
                      callback W State -> M W unit))
    (op : nat -> State -> M W State) (n : nat) (sf : M W State)
    (c : callback W State) : M W unit :=
  match native with
  | Some ex_bulk_execute => ex_bulk_execute op n sf c
  | None =>
      execute_member ex
        (as_invocable
           (compose_callback c (do shared <- sf ; bulk_loop op 0 n shared)))
  end.

(** A sender in the sense of [_SenderTo]: its [submit] member, and whether
    the call is noexcept. *)
Record sender (W Args : Type) : Type := Sender {
  submit_member : callback W Args -> M W unit;
  submit_is_noexcept : bool
}.
Arguments Sender {W Args} _ _.
Arguments submit_member {W Args} _ _.
Arguments submit_is_noexcept {W Args} _.

(** [submit(s, c)] for a sender: [s.submit(c)] when that is noexcept, and
    otherwise [try_invoke_callback(c, [&]{ s.submit(c); })]. *)
Definition submit_sender {W Args} (s : sender W Args) (c : callback W Args)
    : M W unit :=
  noexcept
    (if submit_is_noexcept s then submit_member s c
     else try_invoke_callback (cb_signal c)
            (Invocable (fun _ : unit => submit_member s c) false None) tt).

(** [submit(e, c)] for an executor and a nullary callback. *)
Definition submit_executor {W} (e : executor W) (c : callback W unit)
    : M W unit :=
  noexcept (execute_member e (as_invocable c)).

(** [submit(e, c)] for an executor and a callback that expects a
    sub-executor: [e.execute(compose_callback(c, [=]{ return e; }))]. *)
Definition submit_with_subex {W} (e : executor W) (c : callback W (executor W))
    : M W unit :=
  noexcept (execute_member e (as_invocable (compose_callback c (ret e)))).

(** [inline_sender<An...>]: [submit(c)] applies [c] to the stored tuple. *)
Definition inline_sender {W Args} (an_ : Args) : sender W Args :=
  Sender (fun c => invoke (as_invocable c) an_) false.

(** [terminate_on_error<Fn>]: the call operator of [Fn], an empty [done],
    and an [error] that calls std::terminate. *)
Definition terminate_on_error {W Args} (fn : Args -> M W unit)
    (fn_nothrow : bool) : callback W Args :=
  Callback fn fn_nothrow (CallbackSignal (ret tt) (fun _ => terminate)).

(** A receiver of [transform_sender]: the members [set_value], [set_error]
    and [set_done]. *)
Record receiver (V E W : Type) : Type := Receiver {
  set_value : V -> M W unit;
  set_error : E -> M W unit;
  set_done : M W unit
}.
Arguments Receiver {V E W} _ _ _.
Arguments set_value {V E W} _ _.
Arguments set_error {V E W} _ _.
Arguments set_done {V E W} _.

(** [transform_sender<Func, Inner>::transform_receiver<Receiver>] *)
Definition transform_receiver {V V' E W} (func_ : V -> M W V')
    (receiver_ : receiver V' E W) : receiver V E W :=
  Receiver
    (fun values => do x <- func_ values ; set_value receiver_ x)
    (fun error => set_error receiver_ error)
    (set_done receiver_).

(** [transform_sender<Func, Inner>], with the [submit] member of [inner_]. *)
Record transform_sender (V V' E W : Type) : Type := TransformSender {
  inner_ : receiver V E W -> M W unit;
  func_ : V -> M W V'
}.
Arguments TransformSender {V V' E W} _ _.
Arguments inner_ {V V' E W} _ _.
Arguments func_ {V V' E W} _ _.

(** [transform_sender::submit(r)] *)
Definition transform_submit {V V' E W} (s : transform_sender V V' E W)
    (r : receiver V' E W) : M W unit :=
  inner_ s (transform_receiver (func_ s) r).

End AllProp.

(* ===================================================================== *)
(** * src/pres_prop.cpp: the promise/continuation pipeline                *)
(* ===================================================================== *)

Module PresProp.
Import Cxx Cxx.Notations.

(** [std::variant<std::monostate, std::exception_ptr, T>], the [data]
    member of [_state<T>]; the constructors are its alternatives 0, 1, 2. *)
Inductive variant (T : Type) : Type :=
| monostate
| exception_ptr (e : exception)
| value (v : T).
Arguments monostate {T}.
Arguments exception_ptr {T} e.
Arguments value {T} v.

(** [data.index()] *)
Definition index {T} (data : variant T) : nat :=
  match data with
  | monostate => 0
  | exception_ptr _ => 1
  | value _ => 2
  end.

(** What calling a continuation does: it returns a result or throws. *)
Inductive outcome (B : Type) : Type :=
| returns (b : B)
| throws (e : exception).
Arguments returns {B} b.
Arguments throws {B} e.

(** The promises a task can be started with, all writing in the end to the
    [_state<T>] of one [sync_wait<T>]: [_promise<T>{&state}], and the local
    [_promise{p, fun}] of [then].  [promise T A] accepts values of type
    [A]; a promise that [set_value()] is called on without argument has
    [A = unit]. *)
Inductive promise (T : Type) : Type -> Type :=
| _promise : promise T T
| then_promise {A B : Type} (p_ : promise T B) (fun_ : A -> outcome B)
    : promise T A.
Arguments _promise {T}.
Arguments then_promise {T A B} p_ fun_.

(** A detached thread that has not run yet; its body is [p.set_value(v)]. *)
Inductive thread (T : Type) : Type :=
| set_value_thread {A : Type} (p : promise T A) (v : A).
Arguments set_value_thread {T A} p v.

(** The [_state<T>] of the running [sync_wait<T>] (its mutex and condition
    variable are the scheduling of [wait] below), and the detached threads. *)
Record world (T : Type) : Type := World {
  state : variant T;
  detached : list (thread T)
}.
Arguments World {T} _ _.
Arguments state {T} _.
Arguments detached {T} _.

(** [_promise<T>::_set<I>(xs...)]: lock, [data.emplace<I>(xs...)],
    [cv.notify_one()]. *)
Definition _set {T} (data : variant T) : M (world T) unit :=
  modify (fun w => World data (detached w)).

(** [set_value(auto... vs)]: [_set<2>(vs...)] for [_promise<T>];
    [p_.set_value(fun_(vs...))] for the promise of [then]. *)
Fixpoint set_value {T A} (p : promise T A) : A -> M (world T) unit :=
  match p in promise _ A0 return A0 -> M (world T) unit with
  | _promise => fun v => _set (value v)
  | then_promise p_ fun_ =>
      fun vs =>
        match fun_ vs with
        | returns b => set_value p_ b
        | throws e => throw e
        end
  end.

(** What a caller can pass to [set_exception]: a [std::exception_ptr], an
    object of a class derived from [std::exception], or an object of class
    [std::exception] itself. *)
Inductive exception_argument : Type :=
| by_exception_ptr (e : exception)
| by_object (e : exception)
| by_std_exception.

(** The copy that initialises a parameter of type [std::exception]: an
    object gives its [std::exception] base, what it had as a derived class
    is sliced off; a [std::exception_ptr] does not convert. *)
Definition to_std_exception (a : exception_argument)
    : option exception_argument :=
  match a with
  | by_exception_ptr _ => None
  | by_object _ | by_std_exception => Some by_std_exception
  end.

(** [set_exception]; [None] where the call has no instantiation, so that
    a program that makes it is ill-formed.
    [_promise<T>::set_exception(auto e)] is [_set<1>(e)], that is
    [data.emplace<1>(e)]: it needs a [std::exception_ptr] constructed from
    [e].  The promise of [then] declares
    [void set_exception(exception _e) { p_.set_exception(_e); }], where
    [exception] is [std::exception]: the argument is copied into [_e], and
    [_e] is what is passed on.  The program never calls it. *)
Fixpoint set_exception {T A} (p : promise T A) (a : exception_argument)
    : option (M (world T) unit) :=
  match p with
  | _promise =>
      match a with
      | by_exception_ptr e => Some (_set (exception_ptr e))
      | by_object _ | by_std_exception => None
      end
  | then_promise p_ _ =>
      match to_std_exception a with
      | Some _e => set_exception p_ _e
      | None => None
      end
  end.

(** A task: a callable started with a promise of any type. *)
Definition task (A : Type) : Type :=
  forall T : Type, promise T A -> M (world T) unit.

(** [then(task, fun)]: the lambda that wraps [p] and [fun] in the local
    [_promise] and starts [task] with it. *)
Definition then_ {A B} (task_ : task A) (fun_ : A -> outcome B) : task B :=
  fun T p => task_ T (then_promise p fun_).

(** [new_thread()]: starts a detached thread that calls [p.set_value()]. *)
Definition new_thread : task unit :=
  fun T p => modify (fun w => World (state w) (detached w ++ [set_value_thread p tt])).

(** The body of a thread; an exception that leaves it calls
    std::terminate. *)
Definition run_thread {T} (t : thread T) : M (world T) unit :=
  match t with
  | set_value_thread p v => noexcept (set_value p v)
  end.

(** [state.cv.wait(lk, [&state] { return state.data.index() != 0; })]:
    while the predicate is false the other threads run; [schedule] says
    which of the pending threads runs next, as long as any is consulted. *)
Fixpoint wait {T} (schedule : list nat) : M (world T) unit :=
  fun w =>
    match index (state w) with
    | 0 =>
        match detached w with
        | [] => Blocked w
        | _ :: _ =>
            match schedule with
            | [] => OutOfFuel
            | i :: schedule' =>
                let k := i mod length (detached w) in
                match detached w !! k with
                | Some t =>
                    (run_thread t ;; wait schedule')
                      (World (state w) (delete k (detached w)))
                | None => Undefined
                end
            end
        end
    | _ => Normal tt w
    end.

(** [template <class T, class Task> T sync_wait(Task task)] *)
Definition sync_wait {T} (schedule : list nat) (task_ : task T)
    : result (world T) T :=
  (task_ T _promise ;;
   wait schedule ;;
   do w <- get ;
   match state w with
   | exception_ptr e => throw e
   | value v => ret v
   | monostate => undefined
   end) (World monostate []).

End PresProp.

(* ===================================================================== *)
(** * src/thread_pool.cpp: ThreadPool                                     *)
(* ===================================================================== *)

Module ThreadPool.
Import Cxx Cxx.Notations.

Section pool.

(** The result type of the tasks.  The overload of [execute] for
    [std::promise<void>] is the same statements at the one-element type. *)
Context {ResultT : Type}.

(** The shared state of a [std::promise] and its [std::future]. *)
Inductive shared_state : Type :=
| not_ready
| ready_value (v : ResultT)
| ready_exception (e : exception).

(** What calling a task does: it returns a result or throws. *)
Inductive outcome : Type :=
| returns (v : ResultT)
| throws (e : exception).

(** A nullary callable without effects of its own. *)
Definition TaskT : Type := unit -> outcome.

(** The lambda that [enqueue] pushes, with its captures [p] (the promise,
    given by the position of its shared state) and [t] (the task). *)
Record queued : Type := Queued {
  captured_p : nat;
  captured_t : TaskT
}.

(** Where a thread of [m_pool] stands in the loop of [run]. *)
Inductive worker : Type :=
| waiting                (* at [m_cv.wait] *)
| running (task : queued)  (* has popped [task], the lock released *)
| returned.              (* left the loop *)

Record ThreadPool : Type := Pool {
  m_enabled : bool;
  m_pool : list worker;
  m_tasks : list queued;
  shared_states : list shared_state
}.

(** [ThreadPool(nthreads)]: [m_enabled(true), m_pool(nthreads)] and [run()],
    which starts every thread. *)
Definition make_pool (nthreads : nat) : ThreadPool :=
  Pool true (replicate nthreads waiting) [] [].

(** [enqueue(task)]: a new promise, the lambda pushed at the back of
    [m_tasks], [m_cv.notify_one()]; returns the future. *)
Definition enqueue (task : TaskT) : M ThreadPool nat :=
  fun st =>
    let promise := length (shared_states st) in
    Normal promise
      (Pool (m_enabled st) (m_pool st)
         (m_tasks st ++ [Queued promise task])
         (shared_states st ++ [not_ready])).

(** [std::promise::set_value] *)
Definition promise_set_value (p : nat) (v : ResultT) : M ThreadPool unit :=
  fun st =>
    match shared_states st !! p with
    | Some not_ready =>
        Normal tt
          (Pool (m_enabled st) (m_pool st) (m_tasks st)
             (<[p := ready_value v]> (shared_states st)))
    | Some _ => Thrown promise_already_satisfied st
    | None => Undefined
    end.

(** The destructor of a [std::promise]: a shared state that is not ready
    is made ready with a broken_promise error. *)
Definition promise_destroy (p : nat) : M ThreadPool unit :=
  fun st =>
    match shared_states st !! p with
    | Some not_ready =>
        Normal tt
          (Pool (m_enabled st) (m_pool st) (m_tasks st)
             (<[p := ready_exception broken_promise]> (shared_states st)))
    | Some _ => Normal tt st
    | None => Undefined
    end.

(** [static void execute(std::promise<ResultT>& p, TaskT& task)
    { p.set_value(task()); }] *)
Definition execute (p : nat) (task : TaskT) : M ThreadPool unit :=
  match task tt with
  | returns v => promise_set_value p v
  | throws e => throw e
  end.

Definition set_worker (i : nat) (w : worker) (st : ThreadPool) : ThreadPool :=
  Pool (m_enabled st) (<[i := w]> (m_pool st)) (m_tasks st) (shared_states st).

(** One step of thread [i] in the loop of [run]: from [m_cv.wait] to the
    task popped (or the loop left), or the popped task called.  An
    exception that leaves the thread's function calls std::terminate.
    The popped [std::function] is destroyed when the iteration ends. *)
Definition worker_step (i : nat) : M ThreadPool unit :=
  fun st =>
    match m_pool st !! i with
    | None | Some returned => Normal tt st
    | Some waiting =>
        if negb (m_enabled st) then Normal tt (set_worker i returned st)
        else
          match m_tasks st with
          | [] => Normal tt st
          | task :: rest =>
              Normal tt
                (set_worker i (running task)
                   (Pool (m_enabled st) (m_pool st) rest (shared_states st)))
          end
    | Some (running task) =>
        noexcept
          (execute (captured_p task) (captured_t task) ;;
           promise_destroy (captured_p task) ;;
           modify (set_worker i waiting)) st
    end.

(** The threads scheduled one after the other in the order [schedule]. *)
Fixpoint run_schedule (schedule : list nat) : M ThreadPool unit :=
  match schedule with
  | [] => ret tt
  | i :: schedule' => worker_step i ;; run_schedule schedule'
  end.

Definition is_returned (w : worker) : bool :=
  match w with returned => true | _ => false end.

(** [stop()]: clears [m_enabled] under the lock, [m_cv.notify_all()], and
    joins every thread; the threads run as [schedule] says meanwhile. *)
Definition stop (schedule : list nat) : M ThreadPool unit :=
  modify (fun st => Pool false (m_pool st) (m_tasks st) (shared_states st)) ;;
  run_schedule schedule ;;
  fun st => if forallb is_returned (m_pool st) then Normal tt st else OutOfFuel.

(** The destructor of [m_tasks]: every lambda [l] still in it is destroyed,
    and with it its promise. *)
Definition destroy_all (l : list queued) : M ThreadPool unit :=
  foldr (fun task k => promise_destroy (captured_p task) ;; k)
        (modify (fun st => Pool (m_enabled st) (m_pool st) [] (shared_states st)))
        l.

(** [~ThreadPool()]: [stop()], then the members are destroyed. *)
Definition destroy (schedule : list nat) : M ThreadPool unit :=
  stop schedule ;;
  do st <- get ;
  destroy_all (m_tasks st).

(** [future.get()] in a given state of the pool: the value, the stored
    exception rethrown, or the caller kept waiting. *)
Definition future_get (f : nat) : M ThreadPool ResultT :=
  fun st =>
    match shared_states st !! f with
    | Some (ready_value v) => Normal v st
    | Some (ready_exception e) => Thrown e st
    | Some not_ready => Blocked st
    | None => Undefined
    end.

End pool.

Arguments shared_state : clear implicits.
Arguments outcome : clear implicits.
Arguments TaskT : clear implicits.
Arguments queued : clear implicits.
Arguments worker : clear implicits.
Arguments ThreadPool : clear implicits.

End ThreadPool.

(* ===================================================================== *)
(** * src/thread_pool.cpp: the coroutine that changes threads             *)
(* ===================================================================== *)

Module ThreadHandoff.

(** [ThreadSafeQueue<T>]: the [std::queue] under its lock. *)
Definition push {T} (t : T) (queue : list T) : list T := queue ++ [t].

(** [pop()]: the front element when there is one. *)
Definition pop {T} (queue : list T) : option T * list T :=
  match queue with
  | [] => (None, [])
  | x :: queue' => (Some x, queue')
  end.

(** [std::this_thread::get_id()]: the main thread ([None]) or the thread
    of the [Thread] object of a given index. *)
Definition thread_id : Type := option nat.

(** The statements of a coroutine body: [co_await thread;],
    [display(msg);] and [done = true;]. *)
Inductive stmt : Type :=
| co_await (thread : nat)
| display (msg : string)
| set_done.

(** An [Awaiter]: the handle of a suspended coroutine, that is what is
    left of its body. *)
Definition Awaiter : Type := list stmt.

(** The [Thread] objects with their [m_awaiters], what [display] has
    printed (with the id of the printing thread), and the flag [done]. *)
Record state : Type := State {
  m_awaiters : list (list Awaiter);
  output : list (thread_id * string);
  done : bool
}.

(** [thread.addAwaiter(awaiter)]: [m_awaiters.push(std::move(awaiter))] *)
Definition addAwaiter (thread : nat) (awaiter : Awaiter) (st : state) : state :=
  match m_awaiters st !! thread with
  | Some queue =>
      State (<[thread := push awaiter queue]> (m_awaiters st)) (output st) (done st)
  | None => st
  end.

(** A coroutine running on thread [on] from [body] up to its next
    suspension: [co_await thread] suspends it ([await_ready] is false) and
    [await_suspend] adds its handle to the awaiters of [thread]; at the end
    of the body the coroutine is destroyed ([final_suspend] never
    suspends). *)
Fixpoint resume (on : thread_id) (body : list stmt) (st : state) : state :=
  match body with
  | [] => st
  | co_await thread :: rest => addAwaiter thread rest st
  | display msg :: rest =>
      resume on rest (State (m_awaiters st) (output st ++ [(on, msg)]) (done st))
  | set_done :: rest =>
      resume on rest (State (m_awaiters st) (output st) true)
  end.

(** One iteration of [Thread::run] on the thread of index [i], no stop
    requested: [waitForAnElement], [pop], and the awaiter resumed. *)
Definition run_iteration (i : nat) (st : state) : state :=
  match m_awaiters st !! i with
  | Some queue =>
      match pop queue with
      | (Some awaiter, queue') =>
          resume (Some i) awaiter
            (State (<[i := queue']> (m_awaiters st)) (output st) (done st))
      | (None, _) => st
      end
  | None => st
  end.

(** The threads run one iteration each in the order [schedule]. *)
Definition run_threads (schedule : list nat) (st : state) : state :=
  foldl (fun st i => run_iteration i st) st schedule.

(** [nthreads] [Thread] objects with no awaiter, nothing printed. *)
Definition initial (nthreads : nat) : state :=
  State (replicate nthreads []) [] false.

(** [task f(Thread &thread1, Thread &thread2)] *)
Definition f (thread1 thread2 : nat) : list stmt :=
  [co_await thread1; display "This is the thread1";
   co_await thread2; display "This is the thread2"; set_done].

(** [main] up to its loop [while (!done);]: [Thread a, b;], the display,
    and the call [f(a, b)], which runs on the main thread up to the first
    [co_await]. *)
Definition main_before_loop : state :=
  resume None (display "This is the main thread" :: f 0 1) (initial 2).

End ThreadHandoff.

(* ===================================================================== *)
(** * Verification                                                        *)
(* ===================================================================== *)

Module CxxFacts.
Import Cxx.

Lemma noexcept_not_thrown {St A} (c : M St A) st :
  is_thrown (noexcept c st) = false.
Proof. unfold noexcept. by destruct (c st). Qed.

Lemma noexcept_id {St A} (c : M St A) st :
  is_thrown (c st) = false -> noexcept c st = c st.
Proof. unfold noexcept. by destruct (c st). Qed.

Lemma noexcept_idem {St A} (c : M St A) st :
  noexcept (noexcept c) st = noexcept c st.
Proof. apply noexcept_id, noexcept_not_thrown. Qed.

End CxxFacts.

Module RecvSenderProofs.
Import Cxx Cxx.Notations CxxFacts RecvSender.

(** ** Observing completions: a receiver that records what it is sent *)

Inductive signal (V E : Type) : Type :=
| value_signal (v : V)
| error_signal (e : E)
| done_signal.
Arguments value_signal {V E} v.
Arguments error_signal {V E} e.
Arguments done_signal {V E}.

(** What a run shows: the lines printed, the signals of the inner
    operations and the signals that reach the outer receiver, in order. *)
Inductive event : Type :=
| printed (line : string)
| inner (s : signal Z fail_3_error)
| outer (s : signal Z exception).

#[local] Instance stdout_events : Stdout (list event) :=
  fun s log => log ++ [printed s].

(** The outer receiver of the tests: it records each signal. *)
Definition recorder : receiver Z exception (list event) :=
  Receiver
    (fun v => modify (fun log => log ++ [outer (value_signal v)]))
    (fun e => modify (fun log => log ++ [outer (error_signal e)]))
    (modify (fun log => log ++ [outer done_signal])).

(** A receiver of [fail_3] operations that records each signal. *)
Definition inner_recorder : receiver Z fail_3_error (list event) :=
  Receiver
    (fun v => modify (fun log => log ++ [inner (value_signal v)]))
    (fun e => modify (fun log => log ++ [inner (error_signal e)]))
    (modify (fun log => log ++ [inner done_signal])).

(** [tap r]: records the signal in the log of the outer state, then hands
    it to [r]. *)
Definition tap {L} (r : receiver Z fail_3_error (L * list event))
    : receiver Z fail_3_error (L * list event) :=
  Receiver
    (fun v => modify (fun st => (st.1, st.2 ++ [inner (value_signal v)])) ;;
              set_value_ r v)
    (fun e => modify (fun st => (st.1, st.2 ++ [inner (error_signal e)])) ;;
              set_error_ r e)
    (modify (fun st => (st.1, st.2 ++ [inner done_signal])) ;; set_done_ r).

(** The n-th element is the operation state of the n-th [connect] on one
    [fail_3]; nothing is started. *)
Fixpoint connect_times (n : nat) : M fail_3 (list fail_3_op) :=
  match n with
  | 0 => ret []
  | S n' => do ops <- connect_times n' ; do o <- fail_3_connect ; ret (ops ++ [o])
  end.

(** ** The retry receiver *)

Section retry_facts.
Context {S O V E W : Type}.
Variable inner_connect : M S O.
Variable inner_start :
  O -> receiver V E (_op S O V W * W) -> M (_op S O V W * W) unit.

Abbreviation _retry_receiver := (_retry_receiver inner_connect inner_start).

(** C5. The receiver that [retry] connects the inner sender to: a value is
    passed to the outer receiver [r_] with the same argument, done is passed
    to [r_]; an error is not passed on: whatever its token, a new inner
    operation state is constructed from [s_] and emplaced in [o_] and
    started (with the same kind of receiver); when the construction throws,
    [o_] is left empty and the exception goes to the error channel of
    [r_]. *)
Theorem retry_receiver_channels (fuel : nat) (op : _op S O V W) (w : W) :
  (forall v, set_value (_retry_receiver fuel) v (op, w)
             = on_world (set_value (r_ op) v) (op, w))
  /\ set_done (_retry_receiver fuel) (op, w)
     = on_world (set_done (r_ op)) (op, w)
  /\ (forall e, set_error (_retry_receiver (Datatypes.S fuel)) e (op, w)
      = match inner_connect (s_ op) with
        | Normal o s' =>
            noexcept (inner_start o (_retry_receiver fuel))
              (Op s' (r_ op) (Some o), w)
        | Thrown ex s' =>
            on_world (set_error (r_ op) ex) (Op s' (r_ op) None, w)
        | Terminated s' => Terminated (Op s' (r_ op) None, w)
        | Blocked s' => Blocked (Op s' (r_ op) None, w)
        | Undefined => Undefined
        | OutOfFuel => OutOfFuel
        end).
Proof.
  split; [|split].
  - intros v. reflexivity.
  - unfold set_done at 1. cbn. rewrite noexcept_idem.
    unfold noexcept, on_world, zoom, bind, get_r, get, ret, set_done, noexcept.
    cbn. by destruct (set_done_ (r_ op) w).
  - intros e. unfold set_error at 1. cbn.
    rewrite !noexcept_idem.
    unfold noexcept at 1.
    cbv [try_catch bind emplace_o _connect on_sender zoom set_o deref_o
         get_r get modify ret undefined]; cbn.
    destruct (inner_connect (s_ op)) as [o s'|ex s'|s'|s'| |]; cbn; try done.
    + pose proof (noexcept_not_thrown
        (inner_start o (_retry_receiver fuel)) (Op s' (r_ op) (Some o), w)) as Hn.
      fold (_retry_receiver fuel).
      by destruct (noexcept _ _).
    + unfold on_world, zoom, set_error, noexcept. cbn.
      by destruct (set_error_ (r_ op) ex w).
Qed.

End retry_facts.

(** ** retry over fail_3 *)

(** C1. [::start(::connect(retry(s), r))] for a fresh [fail_3 s] completes
    through the value channel of [r] with 4, and through no other channel:
    for [sink] (the program's [main]) it returns normally after printing
    error three times and success once; with recording receivers the inner
    operations signal error 42 three times, then value 4, and the outer
    receiver gets value 4 only; and for any receiver whose [set_value] does
    not throw the run is the four lines followed by [set_value(r, 4)].  The
    program has one thread, so a run is a function of its input. *)
Theorem retry_fail_3_completes_with_value_4 (fuel : nat) :
  3 <= fuel ->
  main fuel ([] : list string)
  = Normal tt ["error"; "error"; "error"; "success"]%string
  /\ start_retry_fail_3 (fun o r => fail_3_op_start o (tap r)) recorder fuel []
     = Normal tt
         [printed "error"; inner (error_signal (error_int 42));
          printed "error"; inner (error_signal (error_int 42));
          printed "error"; inner (error_signal (error_int 42));
          printed "success"; inner (value_signal 4%Z);
          outer (value_signal 4%Z)]
  /\ forall (W : Type) (H : Stdout W) (r : receiver Z exception W) (w : W),
       let w4 := puts_to "success"
                   (puts_to "error" (puts_to "error" (puts_to "error" w))) in
       is_thrown (set_value r 4%Z w4) = false ->
       start_retry_fail_3 fail_3_op_start r fuel w = set_value r 4%Z w4.
Proof.
  intros Hfuel.
  destruct fuel as [|[|[|fuel]]]; [lia..|].
  split; [reflexivity|]. split; [reflexivity|].
  intros W H [sv se sd] w w4 Hr. subst w4.
  lazy in Hr |- *.
  by destruct (sv _ _).
Qed.

Lemma retry_fail_3_completes_with_value_4_witness :
  main 3 ([] : list string)
  = Normal tt ["error"; "error"; "error"; "success"]%string.
Proof.
  exact (proj1 (retry_fail_3_completes_with_value_4 3 (le_n 3))).
Defined.

(** ** fail_3 alone *)

Lemma connect_times_spec (n : nat) :
  (Z.of_nat n <= INT_MAX)%Z ->
  connect_times n (Fail3 0)
  = Normal (map (fun k => Fail3Op (Z.of_nat (Datatypes.S k))) (seq 0 n))
           (Fail3 (Z.of_nat n)).
Proof.
  induction n as [|n IH]; intros Hn; [done|].
  cbn [connect_times]. unfold bind at 1. rewrite IH by lia.
  unfold bind, fail_3_connect, ret. cbn [count_].
  destruct (decide _) as [Heq|_]; [exfalso; unfold INT_MAX in *; lia|].
  rewrite seq_S, map_app. cbn [map Nat.add].
  by rewrite !Nat2Z.inj_succ.
Qed.

Lemma fail_3_op_start_recorded (c : Z) :
  fail_3_op_start (Fail3Op c) inner_recorder []
  = Normal tt
      (if decide (c <= 3)%Z
       then [printed "error"; inner (error_signal (error_int 42))]
       else [printed "success"; inner (value_signal c)]).
Proof.
  unfold fail_3_op_start. cbn.
  destruct (decide (c > 3)%Z), (decide (c <= 3)%Z); try lia; reflexivity.
Qed.

(** C10. The counter of [fail_3] is advanced by [connect]: after [n] calls
    of [connect] on a fresh [fail_3], none of the operation states started,
    the sender's count is [n] and the k-th operation state holds [k].
    Started afterwards (the sender's count is [n] by then), the k-th
    operation state prints error and signals error 42 when [k <= 3], and
    prints success and signals value [k] when [k >= 4]. *)
Theorem fail_3_counter_advanced_by_connect (n : nat) :
  (Z.of_nat n <= INT_MAX)%Z ->
  exists ops : list fail_3_op,
    connect_times n (Fail3 0) = Normal ops (Fail3 (Z.of_nat n))
    /\ length ops = n
    /\ forall k : nat, 1 <= k <= n ->
         ops !! (k - 1) = Some (Fail3Op (Z.of_nat k))
         /\ fail_3_op_start (Fail3Op (Z.of_nat k)) inner_recorder []
            = Normal tt
                (if decide (k <= 3)
                 then [printed "error"; inner (error_signal (error_int 42))]
                 else [printed "success"; inner (value_signal (Z.of_nat k))]).
Proof.
  intros Hn. eexists. split; [by apply connect_times_spec|].
  split; [by rewrite length_map, length_seq|].
  intros k Hk. split.
  - rewrite list_lookup_fmap, lookup_seq_lt by lia. cbn.
    do 2 f_equal. lia.
  - rewrite fail_3_op_start_recorded.
    destruct (decide (Z.of_nat k <= 3)%Z), (decide (k <= 3)); try lia; done.
Qed.

Lemma fail_3_counter_advanced_by_connect_witness :
  exists ops : list fail_3_op,
    connect_times 5 (Fail3 0) = Normal ops (Fail3 5)
    /\ length ops = 5
    /\ forall k : nat, 1 <= k <= 5 ->
         ops !! (k - 1) = Some (Fail3Op (Z.of_nat k))
         /\ fail_3_op_start (Fail3Op (Z.of_nat k)) inner_recorder []
            = Normal tt
                (if decide (k <= 3)
                 then [printed "error"; inner (error_signal (error_int 42))]
                 else [printed "success"; inner (value_signal (Z.of_nat k))]).
Proof.
  apply (fail_3_counter_advanced_by_connect 5). unfold INT_MAX. lia.
Defined.

End RecvSenderProofs.

(* ===================================================================== *)
(** ** simple_execution_context: the order of drain                       *)
(* ===================================================================== *)

Module SimpleExecutionContextProofs.
Import SimpleExecutionContext.

(** The nodes linked from [h] through their [next] members are [l]. *)
Fixpoint is_seg (nxt : gmap positive (option ptr)) (h : option ptr)
    (l : list ptr) : Prop :=
  match l with
  | [] => h = None
  | x :: l' => h = Some x /\ exists n, nxt !! x = Some n /\ is_seg nxt n l'
  end.

(** The queue of [ctx], from its head, is the list [l]. *)
Definition represents (ctx : simple_execution_context) (l : list ptr) : Prop :=
  is_seg (next ctx) (head ctx) l.

(** The queue as a list: the nodes executed by the first [n] iterations of
    [drain] from the queue [l]. *)
Fixpoint pops (resume : ptr -> list ptr) (n : nat) (l : list ptr) : list ptr :=
  match n, l with
  | S n', x :: l' => x :: pops resume n' (reverse (resume x) ++ l')
  | _, _ => []
  end.

(** A run in which the continuation of node 2 enqueues node 3. *)
Definition resume_2_schedules_3 (t : ptr) : list ptr :=
  if decide (t = 2%positive) then [3%positive] else [].

Lemma is_seg_insert nxt h l x v :
  x ∉ l -> is_seg nxt h l -> is_seg (<[x := v]> nxt) h l.
Proof.
  revert h. induction l as [|y l IH]; intros h Hx; [done|].
  apply not_elem_of_cons in Hx as [Hxy Hxl].
  intros [-> (n & Hn & Hseg)]. split; [done|].
  exists n. split; [by rewrite lookup_insert_ne|by apply IH].
Qed.

Lemma NoDup_reverse {A} (l : list A) : NoDup l -> NoDup (reverse l).
Proof. by rewrite reverse_Permutation. Qed.

Lemma elem_of_reverse_inv {A} (x : A) (l : list A) : x ∈ reverse l -> x ∈ l.
Proof. by rewrite elem_of_reverse. Qed.

Lemma represents_empty : represents empty_context [].
Proof. done. Qed.

Lemma represents_enqueue ctx l x :
  x ∉ l -> represents ctx l -> represents (enqueue x ctx) (x :: l).
Proof.
  intros Hx Hl. split; [done|]. exists (head ctx). split.
  - cbn. apply lookup_insert_eq.
  - cbn. by apply is_seg_insert.
Qed.

Lemma represents_enqueue_all xs : forall ctx l,
  NoDup xs -> (forall z, z ∈ xs -> z ∉ l) -> represents ctx l ->
  represents (foldl (fun c n => enqueue n c) ctx xs) (reverse xs ++ l).
Proof.
  induction xs as [|z xs IH]; intros ctx l Hnd Hfresh Hl; [done|].
  apply NoDup_cons in Hnd as [Hz Hnd].
  cbn [foldl]. rewrite reverse_cons, <- (assoc_L (++)). cbn.
  apply IH; [done| |].
  - intros z' Hz'. apply not_elem_of_cons. split.
    + intros ->. done.
    + apply Hfresh. by right.
  - apply represents_enqueue; [|done]. apply Hfresh. by left.
Qed.

Section order.

Variable resume : ptr -> list ptr.
Variable scheduled : list ptr.

(** No node is enqueued twice: a continuation enqueues distinct nodes, two
    continuations never enqueue the same node, and none enqueues a node
    that was scheduled before the drain. *)
Hypothesis resume_NoDup : forall x, NoDup (resume x).
Hypothesis resume_inj : forall x y z, z ∈ resume x -> z ∈ resume y -> x = y.
Hypothesis resume_fresh : forall x z, z ∈ resume x -> z ∉ scheduled.

(** [l] is the queue and [P] the nodes executed so far. *)
Definition inv (l P : list ptr) : Prop :=
  NoDup l
  /\ (forall y, y ∈ l -> y ∉ P)
  /\ (forall y, y ∈ l \/ y ∈ P ->
        y ∈ scheduled \/ exists p, p ∈ P /\ y ∈ resume p).

Lemma inv_children_fresh x l P z :
  inv (x :: l) P -> z ∈ resume x -> (z ∉ x :: l) /\ (z ∉ P).
Proof using resume_inj resume_fresh.
  intros (Hnd & Hdisj & Horig) Hz.
  assert (forall y, y ∈ x :: l \/ y ∈ P -> z <> y) as Hne.
  { intros y Hy <-. destruct (Horig z Hy) as [Hs|(p & Hp & Hzp)].
    - by apply (resume_fresh x z).
    - assert (x = p) as <- by eauto.
      apply (Hdisj x); [by left|done]. }
  split; intros Hin; eapply Hne; eauto.
Qed.

Lemma inv_step x l P :
  inv (x :: l) P -> inv (reverse (resume x) ++ l) (x :: P).
Proof using resume_NoDup resume_inj resume_fresh.
  intros Hinv.
  pose proof (fun z => inv_children_fresh x l P z Hinv) as Hfresh.
  destruct Hinv as (Hnd & Hdisj & Horig).
  apply NoDup_cons in Hnd as [Hx Hnd].
  split; [|split].
  - apply NoDup_app. split; [by apply NoDup_reverse|]. split; [|done].
    intros z Hz%elem_of_reverse_inv Hzl.
    destruct (Hfresh z Hz) as [Hn _]. apply Hn. by right.
  - intros y [Hy%elem_of_reverse_inv|Hy]%elem_of_app.
    + destruct (Hfresh y Hy) as [Hn HP].
      apply not_elem_of_cons. split; [|done]. intros ->. apply Hn. by left.
    + apply not_elem_of_cons. split; [by intros ->|].
      apply Hdisj. by right.
  - intros y [[Hy%elem_of_reverse_inv|Hy]%elem_of_app|Hy].
    + right. exists x. split; [by left|done].
    + destruct (Horig y) as [?|(p & Hp & Hyp)]; [left; by right|by left|].
      right. exists p. split; [by right|done].
    + apply elem_of_cons in Hy as [->|Hy].
      * destruct (Horig x) as [?|(p & Hp & Hyp)]; [left; by left|by left|].
        right. exists p. split; [by right|done].
      * destruct (Horig y) as [?|(p & Hp & Hyp)]; [by right|by left|].
        right. exists p. split; [by right|done].
Qed.

(** [drain] on the linked nodes executes what [pops] does on the list. *)
Lemma drain_pops fuel : forall ctx l P executed,
  inv l P -> represents ctx l ->
  executed_of (drain resume fuel ctx executed) = executed ++ pops resume fuel l.
Proof using resume_NoDup resume_inj resume_fresh.
  induction fuel as [|fuel IH]; intros ctx l P executed Hinv Hrep.
  - destruct ctx as [h nxt], l as [|x l]; unfold represents in Hrep; cbn in *.
    + subst h. by rewrite app_nil_r.
    + destruct Hrep as [-> _]. by rewrite app_nil_r.
  - destruct ctx as [h nxt], l as [|x l]; unfold represents in Hrep;
      cbn in Hrep |- *.
    + subst h. by rewrite app_nil_r.
    + destruct Hrep as [-> (n & Hn & Hseg)]. cbn. rewrite Hn.
      rewrite (IH _ (reverse (resume x) ++ l) (x :: P)).
      * by rewrite <- (assoc_L (++)).
      * by apply inv_step.
      * apply represents_enqueue_all; [done| |done].
        intros z Hz Hzl.
        destruct (inv_children_fresh x l P z Hinv Hz) as [Hnl _].
        apply Hnl. by right.
Qed.

(** On the list: as long as [B] is in the queue above [A], [A] is not
    executed. *)
Lemma pops_order (A B : ptr) (t : list ptr) n : forall s P i,
  inv (s ++ B :: t) P -> A ∈ t -> A ∉ s ->
  pops resume n (s ++ B :: t) !! i = Some A ->
  exists j, j < i /\ pops resume n (s ++ B :: t) !! j = Some B.
Proof using resume_NoDup resume_inj resume_fresh.
  induction n as [|n IH]; intros s P i Hinv HA HAs Hi.
  - by destruct (s ++ B :: t).
  - destruct s as [|x s]; cbn in Hi |- *.
    + destruct i as [|i]; cbn in Hi.
      * injection Hi as ->. destruct Hinv as (Hnd & _).
        apply NoDup_cons in Hnd as [Hn _]. done.
      * exists 0. split; [lia|done].
    + apply not_elem_of_cons in HAs as [HAx HAs].
      destruct i as [|i]; cbn in Hi; [congruence|].
      rewrite (assoc_L (++)) in Hi.
      destruct (IH (reverse (resume x) ++ s) (x :: P) i) as (j & Hj & HB).
      * rewrite <- (assoc_L (++)). by apply inv_step.
      * done.
      * intros [Hr%elem_of_reverse_inv|Hs]%elem_of_app; [|done].
        destruct (inv_children_fresh x (s ++ B :: t) P A Hinv Hr) as [Hn _].
        apply Hn. right. apply elem_of_app. right. by right.
      * done.
      * exists (S j). split; [lia|]. cbn. by rewrite (assoc_L (++)).
Qed.

End order.

(** When no executed continuation enqueues anything, [drain] empties the
    queue in order, in as many iterations as it has nodes. *)
Lemma drain_simple resume nxt l : forall h executed,
  is_seg nxt h l -> (forall x, x ∈ l -> resume x = []) ->
  drain resume (length l) (Context h nxt) executed
  = drained (executed ++ l) (Context None nxt).
Proof.
  induction l as [|x l IH]; intros h executed Hseg Hres.
  - cbn in *. subst h. by rewrite app_nil_r.
  - destruct Hseg as [-> (n & Hn & Hseg)]. cbn. rewrite Hn.
    unfold execute. rewrite (Hres x) by by left. cbn.
    rewrite (IH n); [|done|].
    + by rewrite <- (assoc_L (++)).
    + intros y Hy. apply Hres. by right.
Qed.

Lemma next_enqueue_all xs ctx :
  represents ctx [] -> NoDup xs ->
  is_seg (next (foldl (fun c n => enqueue n c) ctx xs))
         (head (foldl (fun c n => enqueue n c) ctx xs)) (reverse xs).
Proof.
  intros Hctx Hnd.
  pose proof (represents_enqueue_all xs ctx [] Hnd) as H.
  rewrite app_nil_r in H. apply H; [|done].
  intros z _. apply not_elem_of_nil.
Qed.

(** C3. Nodes are pushed at the head ([enqueue t] makes [t] the head and
    links it to the former head) and [drain] executes from the head.  So
    when the continuations [scheduled] are enqueued in that order on an
    empty context, [A] before [B], then in every run of [drain], however
    many iterations it has made, [B] is executed before [A] is; this holds
    whatever the resumed continuations enqueue during the drain, as long as
    no node is enqueued twice.  When the scheduled continuations enqueue
    nothing, [drain] returns after executing them all in the reverse of the
    order they were enqueued in. *)
Theorem drain_resumes_in_reverse_order
    (resume : ptr -> list ptr) (scheduled : list ptr) (A B : ptr) :
  NoDup scheduled ->
  (forall x, NoDup (resume x)) ->
  (forall x y z, z ∈ resume x -> z ∈ resume y -> x = y) ->
  (forall x z, z ∈ resume x -> z ∉ scheduled) ->
  (exists l1 l2 l3, scheduled = l1 ++ A :: l2 ++ B :: l3) ->
  let ctx := foldl (fun c t => enqueue t c) empty_context scheduled in
  (forall t c, head (enqueue t c) = Some t
               /\ next (enqueue t c) !! t = Some (head c))
  /\ (forall fuel i,
        executed_of (drain resume fuel ctx []) !! i = Some A ->
        exists j, j < i /\ executed_of (drain resume fuel ctx []) !! j = Some B)
  /\ ((forall x, x ∈ scheduled -> resume x = []) ->
      drain resume (length scheduled) ctx []
      = drained (reverse scheduled) (Context None (next ctx))).
Proof.
  intros Hnd H1 H2 H3 (l1 & l2 & l3 & Hsched) ctx.
  assert (represents ctx (reverse scheduled)) as Hrep.
  { apply next_enqueue_all; [apply represents_empty|done]. }
  assert (inv resume scheduled (reverse scheduled) []) as Hinv.
  { split; [by apply NoDup_reverse|]. split.
    - intros y _. apply not_elem_of_nil.
    - intros y [Hy%elem_of_reverse_inv|Hy%elem_of_nil]; [by left|done]. }
  split; [|split].
  - intros t c. split; [done|]. cbn. apply lookup_insert_eq.
  - intros fuel i.
    rewrite (drain_pops resume scheduled H1 H2 H3 fuel ctx _ [] [] Hinv Hrep).
    cbn [app].
    assert (reverse scheduled = reverse l3 ++ B :: (reverse l2 ++ A :: reverse l1))
      as Hrev.
    { rewrite Hsched. rewrite reverse_app, reverse_cons, reverse_app, reverse_cons.
      by rewrite <- !(assoc_L (++)). }
    rewrite Hrev in Hinv |- *.
    apply (pops_order resume scheduled H1 H2 H3 A B _ fuel _ []); [done| |].
    + apply elem_of_app. right. by left.
    + intros HA%elem_of_reverse_inv. rewrite Hsched in Hnd.
      apply NoDup_app in Hnd as (_ & _ & Hnd).
      apply NoDup_cons in Hnd as [Hn _]. apply Hn.
      apply elem_of_app. right. by right.
  - intros Hres. destruct ctx as [h nxt] eqn:Hctx.
    rewrite <- (length_reverse scheduled).
    rewrite (drain_simple resume nxt (reverse scheduled) h []); [done|done|].
    intros x Hx%elem_of_reverse_inv. by apply Hres.
Qed.

Example drain_2_3_1 :
  drain resume_2_schedules_3 5
    (enqueue 2%positive (enqueue 1%positive empty_context)) []
  = drained [2; 3; 1]%positive
      (Context None
         (<[3%positive := Some 1%positive]>
            (<[2%positive := Some 1%positive]>
               (<[1%positive := None]> ∅)))).
Proof. reflexivity. Qed.

#[local] Set Warnings "-clear-no-such-hyp".

Lemma drain_resumes_in_reverse_order_witness :
  exists j, j < 2
    /\ executed_of
         (drain resume_2_schedules_3 3
            (foldl (fun c t => enqueue t c) empty_context [1; 2]%positive) [])
         !! j = Some 2%positive.
Proof.
  refine (proj1 (proj2
    (drain_resumes_in_reverse_order resume_2_schedules_3 [1; 2]%positive
       1%positive 2%positive _ _ _ _ _)) 3 2 _).
  - repeat constructor; set_solver.
  - intros x. unfold resume_2_schedules_3.
    destruct (decide _); repeat constructor; set_solver.
  - intros x y z. unfold resume_2_schedules_3.
    destruct (decide (x = _)), (decide (y = _)); set_solver.
  - intros x z. unfold resume_2_schedules_3.
    destruct (decide _); set_solver.
  - by exists [], [], [].
  - reflexivity.
Defined.

End SimpleExecutionContextProofs.

(* ===================================================================== *)
(** ** count_lines                                                        *)
(* ===================================================================== *)

Module CountLinesProofs.
Import Cxx Cxx.Notations CountLines.

(** The number of newline bytes of a sequence of bytes. *)
Definition newlines (l : list Byte.byte) : Z :=
  Z.of_nat (length (filter (fun b => b = Byte.x0a) l)).

(** The contract of the facility's read: a read inside the file of at
    least one byte completes with at least one byte and at most the number
    requested. *)
Definition reads_some (file : read_only_file) : Prop :=
  forall offset requested : Z,
    (0 <= offset < size file)%Z ->
    (1 <= requested <= size file - offset)%Z ->
    exists n, completes file offset requested = bytes_read n
              /\ (1 <= n <= requested)%Z.

(** A file of three lines, two of them ended by a newline, read two bytes
    at a time. *)
Definition three_lines : read_only_file :=
  File [Byte.x61; Byte.x0a; Byte.x62; Byte.x0a; Byte.x63]
       (fun _ requested => bytes_read (Z.min 2 requested)).

Lemma newlines_app l1 l2 : newlines (l1 ++ l2) = (newlines l1 + newlines l2)%Z.
Proof. unfold newlines. rewrite filter_app, length_app. lia. Qed.

Lemma newlines_bounds l : (0 <= newlines l <= Z.of_nat (length l))%Z.
Proof.
  unfold newlines.
  pose proof (length_filter (fun b => b = Byte.x0a) l). lia.
Qed.

Lemma wrap64_small z : (0 <= z < 2 ^ 64)%Z -> wrap64 z = z.
Proof. intros. unfold wrap64. by apply Z.mod_small. Qed.

(** One read of the loop: the buffer then starts with the bytes of the
    file from [k], and they are what is counted. *)
Lemma read_step (file : read_only_file) (k : nat) (n : Z) buffer :
  k < length (contents file) ->
  (1 <= n <= Z.min bufferSize (size file - Z.of_nat k))%Z ->
  length buffer = Z.to_nat bufferSize ->
  let data := take (Z.to_nat n) (drop k (contents file)) in
  let buffer' := data ++ drop (length data) buffer in
  length data = Z.to_nat n
  /\ length buffer' = Z.to_nat bufferSize
  /\ count_newlines buffer' n = newlines data
  /\ take (k + Z.to_nat n) (contents file) = take k (contents file) ++ data.
Proof.
  intros Hk Hn Hbuf data buffer'. unfold size, bufferSize in *.
  assert (length data = Z.to_nat n) as Hdata.
  { unfold data. rewrite length_take_le; [done|]. rewrite length_drop. lia. }
  split; [done|]. split; [|split].
  - unfold buffer'. rewrite length_app, length_drop, Hdata. lia.
  - unfold count_newlines, newlines, buffer'.
    by rewrite take_app_length' by done.
  - unfold data. by rewrite take_take_drop.
Qed.

(** The loop from offset [k], with the newlines before [k] counted. *)
Lemma count_lines_loop_spec (file : read_only_file) :
  reads_some file -> (size file < 2 ^ 64)%Z ->
  forall fuel k buffer,
    k <= length (contents file) ->
    length (contents file) - k <= fuel ->
    length buffer = Z.to_nat bufferSize ->
    exists buffer',
      count_lines_loop fuel file (size file)
        (newlines (take k (contents file))) (Z.of_nat k) buffer
      = Normal (newlines (contents file)) buffer'.
Proof.
  intros Hreads Hsize fuel.
  induction fuel as [|fuel IH]; intros k buffer Hk Hfuel Hbuf.
  - assert (k = length (contents file)) as -> by lia.
    cbn. destruct (decide _) as [Hlt|_]; [unfold size in Hlt; lia|].
    rewrite take_ge by done. by eexists.
  - cbn [count_lines_loop]. destruct (decide _) as [Hlt|Hge].
    + unfold size in Hlt.
      assert (wrap64 (size file - Z.of_nat k) = size file - Z.of_nat k)%Z as ->.
      { apply wrap64_small. unfold size in *. lia. }
      destruct (Hreads (Z.of_nat k)
                  (Z.min bufferSize (size file - Z.of_nat k)))
        as (n & Hcompl & Hn); [unfold size; lia|unfold size, bufferSize; lia|].
      destruct (read_step file k n buffer) as (Hdata & Hbuf' & Hcount & Htake);
        [lia|done|done|].
      unfold bind at 1, read. rewrite Hcompl.
      unfold bind, modify, ret, get. rewrite Nat2Z.id.
      destruct (decide _) as [Hbig|_]; [exfalso; unfold bufferSize in *; lia|].
      rewrite Hcount, <- newlines_app, <- Htake.
      pose proof (newlines_bounds (take (k + Z.to_nat n) (contents file))) as Hb.
      rewrite length_take in Hb.
      rewrite (wrap64_small (newlines _)) by (unfold size in *; lia).
      rewrite (wrap64_small (Z.of_nat k + n))
        by (unfold size, bufferSize in *; lia).
      replace (Z.of_nat k + n)%Z with (Z.of_nat (k + Z.to_nat n)) by lia.
      apply IH; [unfold size, bufferSize in *; lia..|done].
    + assert (k = length (contents file)) as -> by (unfold size in Hge; lia).
      rewrite take_ge by done. by eexists.
Qed.

(** C4. For a file of fewer than 2^64 bytes whose reads complete with at
    least one and at most the requested number of bytes, however many that
    is each time, [count_lines] returns the number of newline bytes of the
    file; as many iterations as the file has bytes always suffice.  An
    iteration at [offset < fileSize] asks for [min(4096, fileSize - offset)]
    bytes, counts the newlines among the bytes the read returned and
    advances [offset] by their number. *)
Theorem count_lines_counts_newlines
    (fs : gmap string read_only_file) (path : string) (file : read_only_file) :
  fs !! path = Some file ->
  (size file < 2 ^ 64)%Z ->
  reads_some file ->
  (forall fuel, length (contents file) <= fuel ->
     exists buffer,
       count_lines fuel fs path = Normal (newlines (contents file)) buffer)
  /\ (forall fuel (k : nat) count buffer,
        k < length (contents file) ->
        length buffer = Z.to_nat bufferSize ->
        (0 <= count <= Z.of_nat k)%Z ->
        exists n,
          completes file (Z.of_nat k)
            (Z.min 4096 (size file - Z.of_nat k)) = bytes_read n
          /\ (1 <= n <= Z.min 4096 (size file - Z.of_nat k))%Z
          /\ count_lines_loop (S fuel) file (size file) count (Z.of_nat k) buffer
             = count_lines_loop fuel file (size file)
                 (count + newlines (take (Z.to_nat n) (drop k (contents file))))
                 (Z.of_nat k + n)
                 (take (Z.to_nat n) (drop k (contents file))
                  ++ drop (Z.to_nat n) buffer)).
Proof.
  intros Hpath Hsize Hreads. split.
  - intros fuel Hfuel. unfold count_lines, open. rewrite Hpath.
    unfold bind at 1, ret.
    apply (count_lines_loop_spec file Hreads Hsize fuel 0);
      [lia|lia|by rewrite length_replicate].
  - intros fuel k count buffer Hk Hbuf Hcount.
    destruct (Hreads (Z.of_nat k) (Z.min 4096 (size file - Z.of_nat k)))
      as (n & Hcompl & Hn); [unfold size; lia|unfold size; lia|].
    exists n. split; [done|]. split; [done|].
    destruct (read_step file k n buffer) as (Hdata & Hbuf' & Hcnt & Htake);
      [lia|done|done|].
    cbn [count_lines_loop].
    destruct (decide _) as [_|Hge]; [|unfold size in Hge; lia].
    rewrite (wrap64_small (size file - Z.of_nat k)) by (unfold size in *; lia).
    change bufferSize with 4096%Z.
    unfold bind at 1, read. rewrite Hcompl.
    unfold bind, modify, ret, get. rewrite Nat2Z.id.
    destruct (decide _) as [Hbig|_]; [exfalso; lia|].
    rewrite Hdata in *. rewrite Hcnt.
    pose proof (newlines_bounds (take (Z.to_nat n) (drop k (contents file)))) as Hb.
    rewrite Hdata in Hb.
    rewrite (wrap64_small (count + _)) by (unfold size in *; lia).
    by rewrite (wrap64_small (Z.of_nat k + n)) by (unfold size in *; lia).
Qed.

Example count_lines_three_lines :
  count_lines 5 {[ "foo.txt"%string := three_lines ]} "foo.txt"
  = Normal 2%Z
      ([Byte.x63; Byte.x0a] ++ replicate 4094 Byte.x00).
Proof. vm_compute. reflexivity. Qed.

Lemma count_lines_counts_newlines_witness :
  exists buffer,
    count_lines 5 {[ "foo.txt"%string := three_lines ]} "foo.txt"
    = Normal (newlines (contents three_lines)) buffer.
Proof.
  refine (proj1 (count_lines_counts_newlines
    {[ "foo.txt"%string := three_lines ]} "foo.txt" three_lines _ _ _) 5 _).
  - reflexivity.
  - reflexivity.
  - intros offset requested _ Hr. exists (Z.min 2 requested).
    split; [reflexivity|lia].
  - cbn. lia.
Defined.

End CountLinesProofs.

(* ===================================================================== *)
(** ** invoke_callback                                                    *)
(* ===================================================================== *)

Module AllPropProofs.
Import Cxx Cxx.Notations CxxFacts AllProp.

(** What a recording callback has been sent. *)
Inductive callback_event : Type :=
| done_event
| error_event (e : exception).

(** A callback over a log of signals: its call operator is [body]; [done]
    and [error] record that they were called. *)
Definition recording_callback {Args} (body : Args -> M (list callback_event) unit)
    : invocable (list callback_event) Args :=
  Invocable body false
    (Some (CallbackSignal
             (modify (fun log => log ++ [done_event]))
             (fun e => modify (fun log => log ++ [error_event e])))).

(** C6. [invoke_callback(c, args...)] invokes [c] inline.  When [c] is a
    Callback and the invocation throws [e], [c.error] is called, once, with
    a callback_invocation_error that nests [e], and nothing is thrown to
    the caller; a recording callback has then recorded that one error
    signal and nothing else.  When [c] has no done and error members, the
    result is that of the invocation, an exception included. *)
Theorem invoke_callback_routes_failure {W Args}
    (c : invocable W Args) (args : Args) (st : W) :
  match signals c with
  | Some f =>
      invoke_callback c args st
      = match invoke c args st with
        | Thrown e st' =>
            noexcept
              (error f (callback_invocation_error "invocation error" (Some e)))
              st'
        | r => r
        end
  | None => invoke_callback c args st = invoke c args st
  end
  /\ forall (body : Args -> M (list callback_event) unit) log,
       match body args log with
       | Thrown e log' =>
           invoke_callback (recording_callback body) args log
           = Normal tt
               (log' ++ [error_event
                           (callback_invocation_error "invocation error"
                              (Some e))])
       | _ =>
           invoke_callback (recording_callback body) args log = body args log
       end.
Proof.
  split.
  - unfold invoke_callback. destruct (signals c) as [f|].
    + unfold try_invoke_callback. rewrite noexcept_idem.
      unfold noexcept at 1, try_catch.
      destruct (invoke c args st) as [a st'|e st'|st'|st'| |]; try done.
      change (make_callback_invocation_error (Some e))
        with (callback_invocation_error "invocation error" (Some e)).
      pose proof (noexcept_not_thrown
        (error f (callback_invocation_error "invocation error" (Some e))) st').
      by destruct (noexcept _ st').
    + unfold invoke. destruct (is_nothrow_invocable c); [|done].
      by rewrite noexcept_idem.
  - intros body log.
    unfold invoke_callback, try_invoke_callback, invoke, noexcept, try_catch.
    cbn. by destruct (body args log).
Qed.

End AllPropProofs.

(* ===================================================================== *)
(** ** then and sync_wait                                                 *)
(* ===================================================================== *)

Module PresPropProofs.
Import Cxx Cxx.Notations CxxFacts PresProp.

(** A continuation that returns the value of a function. *)
Definition returning {A B} (f : A -> B) : A -> outcome B :=
  fun a => returns (f a).

(** A task delivers [v] when, started with a promise [p], it calls
    [p.set_value(v)], either before it returns or on a detached thread that
    it starts (as [new_thread] does). *)
Definition delivers {A} (t : task A) (v : A) : Prop :=
  forall (T : Type) (p : promise T A) (w : world T),
    t T p w = set_value p v w
    \/ t T p w = Normal tt (World (state w) (detached w ++ [set_value_thread p v])).

Lemma new_thread_delivers : delivers new_thread tt.
Proof. intros T p w. by right. Qed.

Lemma wait_ready {T} schedule (w : world T) :
  index (state w) <> 0 -> wait schedule w = Normal tt w.
Proof. destruct schedule, w as [[] ?]; cbn; congruence. Qed.

(** [sync_wait] of a task that ends in [_set<2>(r)], run now or on the one
    detached thread. *)
Lemma sync_wait_delivered {T A} (t : task T) (p : promise T A) (v : A) (r : T)
    i schedule :
  (forall w, set_value p v w = Normal tt (World (value r) (detached w))) ->
  (t T _promise (World monostate []) = set_value p v (World monostate [])
   \/ t T _promise (World monostate [])
      = Normal tt (World monostate [set_value_thread p v])) ->
  sync_wait (i :: schedule) t = Normal r (World (value r) []).
Proof.
  intros Hset [Ht|Ht]; unfold sync_wait, bind; rewrite Ht.
  - rewrite Hset. by cbn.
  - cbn -[Nat.modulo]. rewrite Nat.mod_1_r. cbn.
    unfold bind, noexcept. rewrite Hset. cbn.
    rewrite ?wait_ready by done. by cbn.
Qed.

(** X30. For a task [t] that delivers [v], [sync_wait<T>(then(t, f))] returns
    [f(v)] and [sync_wait<T>(then(then(t, f), g))] returns [g(f(v))],
    whichever thread is scheduled first: the promise that [then] wraps
    around [p] passes [fun_(vs...)] to [p.set_value], and an exception of
    [fun_] leaves [set_value]. *)
Theorem sync_wait_then_returns_composition {A B C}
    (t : task A) (v : A) (f : A -> B) (g : B -> C)
    (i : nat) (schedule : list nat) :
  delivers t v ->
  sync_wait (i :: schedule) (then_ t (returning f))
  = Normal (f v) (World (value (f v)) [])
  /\ sync_wait (i :: schedule) (then_ (then_ t (returning f)) (returning g))
     = Normal (g (f v)) (World (value (g (f v))) [])
  /\ (forall (T : Type) (p : promise T B) (fun_ : A -> outcome B) (vs : A),
        set_value (then_promise p fun_) vs
        = match fun_ vs with
          | returns b => set_value p b
          | throws e => throw e
          end).
Proof.
  intros Hdel. split; [|split].
  - apply (sync_wait_delivered _ (then_promise _promise (returning f)) v).
    + by intros [].
    + apply (Hdel B).
  - apply (sync_wait_delivered _
             (then_promise (then_promise _promise (returning g)) (returning f)) v).
    + by intros [].
    + apply (Hdel C).
  - reflexivity.
Qed.

(** The program's pipeline with the random numbers fixed: [new_thread()],
    then a continuation that returns 6 + 1, then one that adds 10. *)
Example sync_wait_new_thread_then_then :
  sync_wait [0]
    (then_ (then_ new_thread (returning (fun _ : unit => 6 + 1)%Z))
       (returning (fun i : Z => i + 10)%Z))
  = Normal 17%Z (World (value 17%Z) []).
Proof. reflexivity. Qed.

Lemma sync_wait_then_returns_composition_witness :
  sync_wait [0]
    (then_ (then_ new_thread (returning (fun _ : unit => 6 + 1)%Z))
       (returning (fun i : Z => i + 10)%Z))
  = Normal ((6 + 1) + 10)%Z (World (value ((6 + 1) + 10)%Z) []).
Proof.
  exact (proj1 (proj2
    (sync_wait_then_returns_composition new_thread tt
       (fun _ : unit => 6 + 1)%Z (fun i : Z => i + 10)%Z 0 []
       new_thread_delivers))).
Defined.



(** A failure reported through one [then] stage, as an exception_ptr and
    as a [std::runtime_error] object: neither call can be made. *)
Example then_set_exception_boom :
  set_exception (then_promise (T := Z) _promise (returning Z.succ))
    (by_exception_ptr (runtime_error "boom")) = None
  /\ set_exception (then_promise (T := Z) _promise (returning Z.succ))
       (by_object (runtime_error "boom")) = None.
Proof. by split. Qed.

End PresPropProofs.

(* ===================================================================== *)
(** ** ThreadPool                                                         *)
(* ===================================================================== *)

Module ThreadPoolProofs.
Import Cxx Cxx.Notations CxxFacts ThreadPool.

(** [[]() { return 1; }] and [[]() { return 2; }] *)
Definition lambda_1 : TaskT Z := fun _ => returns 1%Z.
Definition lambda_2 : TaskT Z := fun _ => returns 2%Z.

(** A task whose body throws. *)
Definition thrower : TaskT Z := fun _ => throws (user_exception 7).

Section pool_facts.
Context {ResultT : Type}.

Implicit Types (st : ThreadPool ResultT) (q : queued ResultT).

(** The states of a pool: constructed, then any sequence of calls of
    [enqueue] and of steps of the worker threads. *)
Inductive reachable : ThreadPool ResultT -> Prop :=
| reachable_make nthreads : reachable (make_pool nthreads)
| reachable_enqueue st task fut st' :
    reachable st -> enqueue task st = Normal fut st' -> reachable st'
| reachable_step st i st' :
    reachable st -> worker_step i st = Normal tt st' -> reachable st'.

(** [stop()] has cleared the flag. *)
Definition disabled st : ThreadPool ResultT :=
  Pool false (m_pool st) (m_tasks st) (shared_states st).

(** Every lambda, queued or popped, has a promise of its own whose shared
    state is not ready. *)
Record wf st : Prop := Wf {
  wf_queue_nodup : NoDup (captured_p <$> m_tasks st);
  wf_queue_not_ready : forall q,
    q ∈ m_tasks st -> shared_states st !! captured_p q = Some not_ready;
  wf_running_not_ready : forall i q,
    m_pool st !! i = Some (running q) ->
    shared_states st !! captured_p q = Some not_ready;
  wf_running_not_queued : forall i q q',
    m_pool st !! i = Some (running q) -> q' ∈ m_tasks st ->
    captured_p q' <> captured_p q;
  wf_running_unique : forall i j q q',
    m_pool st !! i = Some (running q) -> m_pool st !! j = Some (running q') ->
    captured_p q = captured_p q' -> i = j
}.

(** The ways a step of a worker returns normally. *)
Inductive step_kind st (i : nat) : ThreadPool ResultT -> Prop :=
| step_idle : step_kind st i st
| step_leave :
    m_pool st !! i = Some waiting -> m_enabled st = false ->
    step_kind st i (set_worker i returned st)
| step_pop q rest :
    m_pool st !! i = Some waiting -> m_enabled st = true ->
    m_tasks st = q :: rest ->
    step_kind st i
      (set_worker i (running q)
         (Pool true (m_pool st) rest (shared_states st)))
| step_call q v :
    m_pool st !! i = Some (running q) ->
    captured_t q tt = returns v ->
    shared_states st !! captured_p q = Some not_ready ->
    step_kind st i
      (set_worker i waiting
         (Pool (m_enabled st) (m_pool st) (m_tasks st)
            (<[captured_p q := ready_value v]> (shared_states st)))).

(** The lambda of the future [fut] is still in the queue, or popped and
    not yet called to the end. *)
Definition pending (fut : nat) st : Prop :=
  (exists q, q ∈ m_tasks st /\ captured_p q = fut)
  \/ (exists i q, m_pool st !! i = Some (running q) /\ captured_p q = fut).

(** The shared state of the future of [f], which returns [v]: not ready
    as long as the lambda is pending, and then ready with [v]. *)
Definition tracks (fut : nat) (f : TaskT ResultT) (v : ResultT) st : Prop :=
  (forall q, q ∈ m_tasks st -> captured_p q = fut -> captured_t q = f)
  /\ (forall i q, m_pool st !! i = Some (running q) ->
        captured_p q = fut -> captured_t q = f)
  /\ ((shared_states st !! fut = Some not_ready /\ pending fut st)
      \/ shared_states st !! fut = Some (ready_value v)).

Lemma worker_step_normal st i st' :
  worker_step i st = Normal tt st' -> step_kind st i st'.
Proof.
  unfold worker_step.
  destruct (m_pool st !! i) as [[|q|]|] eqn:Hi.
  - destruct (m_enabled st) eqn:Hen; cbn.
    + destruct (m_tasks st) as [|q rest] eqn:Hq; intros [= <-].
      * constructor.
      * by eapply step_pop.
    + intros [= <-]. by constructor.
  - unfold noexcept, bind, execute.
    destruct (captured_t q tt) as [v|e] eqn:Ht; [|done].
    unfold promise_set_value.
    destruct (shared_states st !! captured_p q) as [[| |]|] eqn:Hp; try done.
    unfold promise_destroy. cbn.
    rewrite list_lookup_insert_eq by by eapply lookup_lt_Some.
    unfold modify. intros [= <-]. by eapply step_call.
  - intros [= <-]. constructor.
  - intros [= <-]. constructor.
Qed.

Lemma lookup_set_worker st i w j w' :
  m_pool (set_worker i w st) !! j = Some w' ->
  (j = i /\ w' = w) \/ (j <> i /\ m_pool st !! j = Some w').
Proof.
  cbn. intros [(-> & -> & _)|[? ?]]%list_lookup_insert_Some; [by left|].
  right. by split.
Qed.

Lemma wf_make nthreads : wf (make_pool nthreads).
Proof.
  split; cbn.
  - constructor.
  - intros q []%elem_of_nil.
  - intros i q [? _]%lookup_replicate. done.
  - intros i q q' _ []%elem_of_nil.
  - intros i j q q' [? _]%lookup_replicate. done.
Qed.

Lemma wf_enqueue st task fut st' :
  wf st -> enqueue task st = Normal fut st' -> wf st'.
Proof.
  intros [Hnd Hq Hr Hrq Hru] [= <- <-].
  assert (forall p, shared_states st !! p = Some not_ready ->
            (shared_states st ++ [not_ready]) !! p = Some not_ready
            /\ p <> length (shared_states st)) as Hold.
  { intros p Hp. split; [by apply lookup_app_l_Some|].
    apply lookup_lt_Some in Hp. lia. }
  split; cbn.
  - rewrite fmap_app. apply NoDup_app. split; [done|]. split.
    + intros p (q & -> & Hin)%list_elem_of_fmap Hp%list_elem_of_singleton.
      by destruct (Hold _ (Hq q Hin)).
    + apply NoDup_singleton.
  - intros q [Hin|Hs%list_elem_of_singleton]%elem_of_app.
    + by apply Hold, Hq.
    + subst q. cbn. by rewrite lookup_app_r, Nat.sub_diag.
  - intros i q Hi. by eapply Hold, Hr.
  - intros i q q' Hi [Hin|Hs%list_elem_of_singleton]%elem_of_app.
    + by eapply Hrq.
    + subst q'. cbn. intros Heq. destruct (Hold _ (Hr i q Hi)) as [_ Hne]. by apply Hne.
  - done.
Qed.

Lemma wf_step st i st' : wf st -> step_kind st i st' -> wf st'.
Proof.
  intros [Hnd Hq Hr Hrq Hru] Hstep.
  destruct Hstep as [|Hi Hen|q rest Hi Hen Htasks|q v Hi Ht Hp].
  - done.
  - split; cbn; [done|done| | |].
    + intros j q' [[_ ?]|[_ Hj]]%lookup_set_worker; [done|by eapply Hr].
    + intros j q' q'' [[_ ?]|[_ Hj]]%lookup_set_worker; [done|by eapply Hrq].
    + intros j k q' q'' [[_ ?]|[_ Hj]]%lookup_set_worker; [done|].
      intros [[_ ?]|[_ Hk]]%lookup_set_worker; [done|by eapply Hru].
  - rewrite Htasks in *. cbn in Hnd. apply NoDup_cons in Hnd as [Hqn Hnd].
    split; cbn; [done| | | |].
    + intros q' Hq'. apply Hq. by right.
    + intros j q' [[_ [= ->]]|[_ Hj]]%lookup_set_worker.
      * apply Hq. by left.
      * by eapply Hr.
    + intros j q' q'' [[_ [= ->]]|[_ Hj]]%lookup_set_worker Hin.
      * intros Heq. apply Hqn. rewrite <- Heq. by apply list_elem_of_fmap_2.
      * eapply Hrq; [done|]. by right.
    + intros j k q' q'' [[-> [= ->]]|[Hji Hj]]%lookup_set_worker
        [[-> [= ->]]|[Hki Hk]]%lookup_set_worker Heq; [done| | |by eapply Hru].
      * exfalso. eapply (Hrq k q'' q); [done|by left|done].
      * exfalso. eapply (Hrq j q' q); [done|by left|done].
  - assert (forall p, p <> captured_p q ->
              <[captured_p q := ready_value v]> (shared_states st) !! p
              = shared_states st !! p) as Hother.
    { intros p Hne. by rewrite list_lookup_insert_ne. }
    split; cbn; [done| | |.. ].
    + intros q' Hq'. rewrite Hother; [by apply Hq|by eapply Hrq].
    + intros j q' [[_ ?]|[Hji Hj]]%lookup_set_worker; [done|].
      rewrite Hother; [by eapply Hr|].
      intros Heq. apply Hji. by eapply Hru.
    + intros j q' q'' [[_ ?]|[_ Hj]]%lookup_set_worker; [done|by eapply Hrq].
    + intros j k q' q'' [[_ ?]|[_ Hj]]%lookup_set_worker; [done|].
      intros [[_ ?]|[_ Hk]]%lookup_set_worker; [done|by eapply Hru].
Qed.

Lemma reachable_wf st : reachable st -> wf st.
Proof.
  induction 1 as [n|st task fut st' _ IH He|st i st' _ IH Hs].
  - apply wf_make.
  - by eapply wf_enqueue.
  - eapply wf_step; [done|]. by apply worker_step_normal.
Qed.

Lemma wf_disabled st : wf st -> wf (disabled st).
Proof. by intros []. Qed.

Lemma run_schedule_cons i schedule st st2 :
  run_schedule (i :: schedule) st = Normal tt st2 ->
  exists st1, worker_step i st = Normal tt st1
              /\ run_schedule schedule st1 = Normal tt st2.
Proof.
  cbn. unfold bind. destruct (worker_step i st) as [[] st1| | | | |]; try done.
  by exists st1.
Qed.

Lemma run_schedule_app s1 s2 st st1 :
  run_schedule s1 st = Normal tt st1 ->
  run_schedule (s1 ++ s2) st = run_schedule s2 st1.
Proof.
  revert st. induction s1 as [|i s1 IH]; intros st; cbn.
  - by intros [= ->].
  - unfold bind. destruct (worker_step i st) as [[] st'| | | | |]; try done.
    apply IH.
Qed.

Lemma wf_run_schedule schedule : forall st st',
  wf st -> run_schedule schedule st = Normal tt st' -> wf st'.
Proof.
  induction schedule as [|i schedule IH]; intros st st' Hwf.
  - by intros [= <-].
  - intros (st1 & H1 & H2)%run_schedule_cons.
    eapply IH; [|done]. eapply wf_step; [done|by apply worker_step_normal].
Qed.

(** *** A task that returns *)

(** Worker [i], waiting, pops the first task and calls it: two steps. *)
Lemma serve_one st i q rest v :
  wf st -> m_enabled st = true -> m_pool st !! i = Some waiting ->
  m_tasks st = q :: rest -> captured_t q tt = returns v ->
  run_schedule [i; i] st
  = Normal tt
      (Pool true (m_pool st) rest
         (<[captured_p q := ready_value v]> (shared_states st))).
Proof.
  intros Hwf Hen Hi Htasks Ht.
  assert (shared_states st !! captured_p q = Some not_ready) as Hp.
  { apply Hwf. rewrite Htasks. by left. }
  cbn. unfold bind at 1. unfold worker_step at 1. rewrite Hi, Hen, Htasks. cbn.
  unfold bind at 1, worker_step. cbn.
  rewrite list_lookup_insert_eq by by eapply lookup_lt_Some.
  unfold noexcept, bind, execute. rewrite Ht.
  unfold promise_set_value. cbn. rewrite Hp.
  unfold promise_destroy. cbn.
  rewrite list_lookup_insert_eq by by eapply lookup_lt_Some.
  unfold modify, ret, set_worker. cbn.
  by rewrite list_insert_insert_eq, list_insert_id.
Qed.

(** Worker [i] alone serves the queue up to its last task. *)
Lemma serve_queue i fut (f : TaskT ResultT) v : forall ahead st,
  wf st -> m_enabled st = true -> m_pool st !! i = Some waiting ->
  m_tasks st = ahead ++ [Queued fut f] ->
  (forall q, q ∈ ahead -> exists v', captured_t q tt = returns v') ->
  f tt = returns v ->
  exists st', run_schedule (replicate (2 * (length ahead + 1)) i) st
              = Normal tt st'
              /\ shared_states st' !! fut = Some (ready_value v).
Proof.
  induction ahead as [|q ahead IH]; intros st Hwf Hen Hi Htasks Hret Hf.
  - eexists. split.
    + by apply (serve_one st i (Queued fut f) [] v).
    + cbn. apply list_lookup_insert_eq.
      apply (lookup_lt_Some _ _ not_ready).
      apply (wf_queue_not_ready st Hwf (Queued fut f)). rewrite Htasks. by left.
  - destruct (Hret q) as [v' Hv']; [by left|].
    pose proof (serve_one st i q (ahead ++ [Queued fut f]) v' Hwf Hen Hi Htasks Hv')
      as Hone.
    set (st1 := Pool true (m_pool st) (ahead ++ [Queued fut f])
                  (<[captured_p q := ready_value v']> (shared_states st))) in *.
    destruct (IH st1) as (st' & Hrun & Hcell); try done.
    + by eapply wf_run_schedule.
    + intros q' Hq'. apply Hret. by right.
    + exists st'. split; [|done].
      replace (replicate (2 * (length (q :: ahead) + 1)) i)
        with ([i; i] ++ replicate (2 * (length ahead + 1)) i).
      * by rewrite (run_schedule_app _ _ _ _ Hone).
      * cbn [length]. replace (2 * (S (length ahead) + 1))
          with (2 + 2 * (length ahead + 1)) by lia.
        by rewrite replicate_add.
Qed.

Lemma tracks_step fut f v st i st' :
  f tt = returns v ->
  tracks fut f v st -> step_kind st i st' -> tracks fut f v st'.
Proof.
  intros Hf (Hq & Hr & Hcell) Hstep.
  destruct Hstep as [|Hi Hen|q rest Hi Hen Htasks|q v' Hi Ht Hp].
  - done.
  - split; [done|]. split.
    + intros j q' [[_ ?]|[_ Hj]]%lookup_set_worker; [done|by eapply Hr].
    + destruct Hcell as [[Hc Hpend]|Hc]; [left|by right]. split; [done|].
      destruct Hpend as [Hpend|(j & q' & Hj & Hfut)]; [by left|right].
      exists j, q'. split; [|done]. cbn. rewrite list_lookup_insert_ne; [done|].
      intros ->. congruence.
  - split; [|split]; cbn.
    + intros q' Hq'. apply Hq. rewrite Htasks. by right.
    + intros j q' [[_ [= ->]]|[_ Hj]]%lookup_set_worker.
      * apply Hq. rewrite Htasks. by left.
      * by eapply Hr.
    + destruct Hcell as [[Hc Hpend]|Hc]; [left|by right]. split; [done|].
      destruct Hpend as [(q' & Hq' & Hfut)|(j & q' & Hj & Hfut)].
      * rewrite Htasks in Hq'. apply elem_of_cons in Hq' as [->|Hq'].
        -- right. exists i, q. split; [|done]. cbn.
           apply list_lookup_insert_eq. by eapply lookup_lt_Some.
        -- left. by exists q'.
      * right. exists j, q'. split; [|done]. cbn.
        rewrite list_lookup_insert_ne; [done|]. intros ->. congruence.
  - split; [done|]. split; cbn.
    + intros j q' [[_ ?]|[_ Hj]]%lookup_set_worker; [done|by eapply Hr].
    + destruct (decide (captured_p q = fut)) as [Heq|Hne].
      * right. rewrite (Hr i q Hi Heq), Hf in Ht. injection Ht as <-.
        rewrite <- Heq. apply list_lookup_insert_eq. by eapply lookup_lt_Some.
      * rewrite list_lookup_insert_ne by done.
        destruct Hcell as [[Hc Hpend]|Hc]; [left|by right]. split; [done|].
        destruct Hpend as [Hpend|(j & q' & Hj & Hfut)]; [by left|right].
        exists j, q'. split; [|done]. cbn.
        rewrite list_lookup_insert_ne; [done|]. intros ->. congruence.
Qed.

Lemma tracks_run_schedule fut f v schedule : forall st st',
  f tt = returns v ->
  tracks fut f v st -> run_schedule schedule st = Normal tt st' ->
  tracks fut f v st'.
Proof.
  induction schedule as [|i schedule IH]; intros st st' Hf Htr.
  - by intros [= <-].
  - intros (st1 & H1 & H2)%run_schedule_cons.
    eapply IH; [done| |done].
    eapply tracks_step; [done|done|by apply worker_step_normal].
Qed.

Lemma tracks_enqueue st f v :
  wf st ->
  tracks (length (shared_states st)) f v
    (Pool (m_enabled st) (m_pool st)
       (m_tasks st ++ [Queued (length (shared_states st)) f])
       (shared_states st ++ [not_ready])).
Proof.
  intros Hwf. split; [|split]; cbn.
  - intros q [Hin|Hs%list_elem_of_singleton]%elem_of_app Heq; [|by subst q].
    apply (wf_queue_not_ready st Hwf), lookup_lt_Some in Hin. lia.
  - intros i q Hi Heq.
    apply (wf_running_not_ready st Hwf), lookup_lt_Some in Hi. lia.
  - left. split; [by rewrite lookup_app_r, Nat.sub_diag|].
    left. eexists. split; [apply elem_of_app; right; by left|done].
Qed.

(** C8. [enqueue(f)] for a callable [f] that returns [v]: whatever the
    threads do, the shared state of the returned future is not ready only
    as long as the lambda is queued or being called, and otherwise it is
    ready with [v], the value of [f()], so that [get()] yields [v]; and it
    does become ready: for instance when a waiting worker serves the queue
    alone and the tasks queued before [f] return too. *)
Theorem enqueue_round_trip st (f : TaskT ResultT) (v : ResultT) (i : nat) :
  reachable st ->
  m_enabled st = true ->
  m_pool st !! i = Some waiting ->
  (forall q, q ∈ m_tasks st -> exists v', captured_t q tt = returns v') ->
  f tt = returns v ->
  exists fut st1,
    enqueue f st = Normal fut st1
    /\ (forall schedule st2,
          run_schedule schedule st1 = Normal tt st2 ->
          future_get fut st2 = Normal v st2
          \/ (future_get fut st2 = Blocked st2 /\ pending fut st2))
    /\ exists st2,
         run_schedule (replicate (2 * (length (m_tasks st) + 1)) i) st1
         = Normal tt st2
         /\ future_get fut st2 = Normal v st2.
Proof.
  intros Hreach Hen Hi Hret Hf.
  pose proof (reachable_wf st Hreach) as Hwf.
  eexists _, _. split; [reflexivity|]. split.
  - intros schedule st2 Hrun.
    pose proof (tracks_run_schedule _ f v schedule _ st2 Hf
                  (tracks_enqueue st f v Hwf) Hrun) as (_ & _ & [[Hc Hp]|Hc]).
    + right. split; [|done]. unfold future_get. by rewrite Hc.
    + left. unfold future_get. by rewrite Hc.
  - destruct (serve_queue i (length (shared_states st)) f v (m_tasks st)
                (Pool (m_enabled st) (m_pool st)
                   (m_tasks st ++ [Queued (length (shared_states st)) f])
                   (shared_states st ++ [not_ready])))
      as (st2 & Hrun & Hcell); try done.
    + by eapply wf_enqueue.
    + exists st2. split; [done|]. unfold future_get. by rewrite Hcell.
Qed.

(** *** A task that throws *)

(** C2, as the code has it: [execute] has no handler.  When the body of a
    task throws, nothing is stored in its promise, the exception leaves the
    lambda and the function of the worker thread, and std::terminate is
    called: the step of a worker that calls such a task ends the process,
    with the pool as it was.  So after [enqueue(f)] on a pool with an empty
    queue, the waiting worker that pops [f] and calls it terminates the
    process with the shared state of the future not ready. *)
Theorem task_exception_terminates st (f : TaskT ResultT) (e : exception)
    (i : nat) :
  reachable st ->
  m_enabled st = true ->
  m_pool st !! i = Some waiting ->
  m_tasks st = [] ->
  f tt = throws e ->
  (forall st' j q, m_pool st' !! j = Some (running q) ->
     captured_t q = f -> worker_step j st' = Terminated st')
  /\ exists fut st1 st2,
       enqueue f st = Normal fut st1
       /\ run_schedule [i; i] st1 = Terminated st2
       /\ shared_states st2 !! fut = Some not_ready
       /\ future_get fut st2 = Blocked st2.
Proof.
  intros Hreach Hen Hi Htasks Hf. split.
  - intros st' j q Hj Hq. unfold worker_step. rewrite Hj.
    unfold noexcept, bind, execute. by rewrite Hq, Hf.
  - eexists _, _, _. split; [reflexivity|].
    assert (i < length (m_pool st)) as Hlt by by eapply lookup_lt_Some.
    split; [|split].
    + cbn. unfold bind at 1. unfold worker_step at 1. cbn.
      rewrite Hi, Hen, Htasks. cbn.
      unfold bind, worker_step. cbn.
      rewrite list_lookup_insert_eq by done.
      unfold noexcept, bind, execute. cbn. rewrite Hf. reflexivity.
    + cbn. by rewrite lookup_app_r, Nat.sub_diag.
    + unfold future_get. cbn. by rewrite lookup_app_r, Nat.sub_diag.
Qed.

(** *** Shutdown *)

Lemma stop_step st i st' :
  wf st -> m_enabled st = false -> step_kind st i st' ->
  m_enabled st' = false /\ m_tasks st' = m_tasks st
  /\ forall q, q ∈ m_tasks st ->
       shared_states st' !! captured_p q = shared_states st !! captured_p q.
Proof.
  intros Hwf Hdis Hstep.
  destruct Hstep as [|Hi Hen|q rest Hi Hen Htasks|q v Hi Ht Hp]; cbn;
    try done; try congruence.
  split; [done|]. split; [done|].
  intros q' Hq'. apply list_lookup_insert_ne.
  intros Heq. by eapply (wf_running_not_queued st Hwf i q q').
Qed.

Lemma stop_run_schedule schedule : forall st st',
  wf st -> m_enabled st = false ->
  run_schedule schedule st = Normal tt st' ->
  m_enabled st' = false /\ m_tasks st' = m_tasks st
  /\ forall q, q ∈ m_tasks st ->
       shared_states st' !! captured_p q = shared_states st !! captured_p q.
Proof.
  induction schedule as [|i schedule IH]; intros st st' Hwf Hdis.
  - by intros [= <-].
  - intros (st1 & H1%worker_step_normal & H2)%run_schedule_cons.
    destruct (stop_step st i st1 Hwf Hdis H1) as (Hdis1 & Htasks1 & Hcells1).
    destruct (IH st1 st' (wf_step st i st1 Hwf H1) Hdis1 H2)
      as (Hdis' & Htasks' & Hcells').
    split; [done|]. split; [congruence|].
    intros q Hq. rewrite Hcells' by by rewrite Htasks1. by apply Hcells1.
Qed.

Lemma destroy_all_spec l : forall st,
  NoDup (captured_p <$> l) ->
  (forall q, q ∈ l -> shared_states st !! captured_p q = Some not_ready) ->
  exists st',
    destroy_all l st = Normal tt st'
    /\ m_tasks st' = []
    /\ (forall q, q ∈ l ->
          shared_states st' !! captured_p q
          = Some (ready_exception broken_promise))
    /\ (forall p, p ∉ captured_p <$> l ->
          shared_states st' !! p = shared_states st !! p).
Proof.
  induction l as [|q l IH]; intros st Hnd Hcells.
  - eexists. split; [reflexivity|]. split; [done|]. split; [|done].
    intros q []%elem_of_nil.
  - cbn in Hnd. apply NoDup_cons in Hnd as [Hq Hnd].
    assert (shared_states st !! captured_p q = Some not_ready) as Hp
      by (apply Hcells; by left).
    set (st1 := Pool (m_enabled st) (m_pool st) (m_tasks st)
                  (<[captured_p q := ready_exception broken_promise]>
                     (shared_states st))).
    destruct (IH st1) as (st' & Hrun & Htasks & Hbroken & Hother); [done| |].
    { intros q' Hq'. cbn. rewrite list_lookup_insert_ne.
      - apply Hcells. by right.
      - intros Heq. apply Hq. rewrite Heq. by apply list_elem_of_fmap_2. }
    exists st'. split; [|split; [done|split]].
    + cbn. unfold bind at 1, promise_destroy. rewrite Hp. apply Hrun.
    + intros q' [->|Hq']%elem_of_cons; [|by apply Hbroken].
      rewrite Hother by done. cbn. apply list_lookup_insert_eq.
      by eapply lookup_lt_Some.
    + intros p Hp'. cbn in Hp'. apply not_elem_of_cons in Hp' as [Hne Hp'].
      rewrite Hother by done. cbn. by rewrite list_lookup_insert_ne.
Qed.

(** C9. Once [stop()] has cleared [m_enabled]: a worker that wakes at
    [m_cv.wait] leaves the loop and pops nothing; whatever the threads do
    then, [m_tasks] stays as it was and the shared state of every queued
    task stays not ready; and when the destructor has returned, the queue
    has been destroyed with no task called, and the future of every task
    that was queued holds a broken_promise error, not a value. *)
Theorem shutdown_discards_queued_tasks st :
  reachable st ->
  (forall i, m_pool st !! i = Some waiting ->
     worker_step i (disabled st) = Normal tt (set_worker i returned (disabled st))
     /\ m_tasks (set_worker i returned (disabled st)) = m_tasks st)
  /\ (forall schedule st',
        run_schedule schedule (disabled st) = Normal tt st' ->
        m_tasks st' = m_tasks st
        /\ forall q, q ∈ m_tasks st ->
             shared_states st' !! captured_p q = Some not_ready)
  /\ (forall schedule st',
        destroy schedule st = Normal tt st' ->
        m_tasks st' = []
        /\ forall q, q ∈ m_tasks st ->
             future_get (captured_p q) st' = Thrown broken_promise st').
Proof.
  intros Hreach. pose proof (reachable_wf st Hreach) as Hwf.
  pose proof (wf_disabled st Hwf) as Hwfd.
  assert (forall schedule st',
            run_schedule schedule (disabled st) = Normal tt st' ->
            m_tasks st' = m_tasks st
            /\ forall q, q ∈ m_tasks st ->
                 shared_states st' !! captured_p q = Some not_ready) as Hrun.
  { intros schedule st' Hs.
    destruct (stop_run_schedule schedule (disabled st) st' Hwfd eq_refl Hs)
      as (_ & Htasks & Hcells).
    split; [done|]. intros q Hq. rewrite Hcells by done.
    by apply (wf_queue_not_ready st Hwf). }
  split; [|split; [done|]].
  - intros i Hi. split; [|done]. unfold worker_step. cbn. by rewrite Hi.
  - intros schedule st'. unfold destroy, stop.
    unfold bind at 1. unfold bind at 1. unfold modify at 1.
    fold (disabled st). unfold bind at 1.
    destruct (run_schedule schedule (disabled st)) as [[] st1| | | | |] eqn:Hs;
      try done.
    destruct (forallb is_returned (m_pool st1)); [|done].
    unfold bind, get.
    destruct (Hrun schedule st1 Hs) as [Htasks Hcells].
    destruct (destroy_all_spec (m_tasks st1) st1)
      as (st'' & Hd & Hempty & Hbroken & _).
    { rewrite Htasks. apply Hwf. }
    { rewrite Htasks. done. }
    rewrite Hd. intros [= <-]. split; [done|].
    intros q Hq. unfold future_get. rewrite Hbroken; [done|by rewrite Htasks].
Qed.

End pool_facts.

(** *** The tasks of the program *)

Example enqueue_lambda_1_then_lambda_2 :
  (do f1 <- enqueue lambda_1 ;
   run_schedule [0; 0] ;;
   do r1 <- future_get f1 ;
   do f2 <- enqueue lambda_2 ;
   run_schedule [1; 1] ;;
   do r2 <- future_get f2 ;
   ret (r1, r2)) (make_pool 2)
  = Normal (1%Z, 2%Z)
      (Pool true [waiting; waiting] [] [ready_value 1%Z; ready_value 2%Z]).
Proof. reflexivity. Qed.

Lemma enqueue_round_trip_witness :
  exists fut st1,
    enqueue lambda_1 (make_pool 2) = Normal fut st1
    /\ (forall schedule st2,
          run_schedule schedule st1 = Normal tt st2 ->
          future_get fut st2 = Normal 1%Z st2
          \/ (future_get fut st2 = Blocked st2 /\ pending fut st2))
    /\ exists st2,
         run_schedule (replicate (2 * (length (m_tasks (make_pool (ResultT := Z) 2)) + 1)) 0) st1
         = Normal tt st2
         /\ future_get fut st2 = Normal 1%Z st2.
Proof.
  apply (enqueue_round_trip (make_pool 2) lambda_1 1%Z 0).
  - constructor.
  - reflexivity.
  - reflexivity.
  - intros q Hq. by apply elem_of_nil in Hq.
  - reflexivity.
Defined.

(** C2 as the specification has it fails: the worker that calls [thrower]
    does not go on and the future does not rethrow the exception; the
    process is terminated with the shared state not ready. *)
Lemma task_exception_not_deferred :
  run_schedule [0; 0]
    (Pool true [waiting] [Queued 0 thrower] [not_ready])
  = Terminated (Pool true [running (Queued 0 thrower)] [] [not_ready])
  /\ enqueue thrower (make_pool 1)
     = Normal 0 (Pool true [waiting] [Queued 0 thrower] [not_ready])
  /\ ~ exists st2,
         run_schedule [0; 0]
           (Pool true [waiting] [Queued 0 thrower] [not_ready])
         = Normal tt st2
         /\ future_get 0 st2 = Thrown (user_exception 7) st2.
Proof.
  split; [reflexivity|]. split; [reflexivity|].
  intros (st2 & Hrun & _). discriminate Hrun.
Qed.

Lemma task_exception_terminates_witness :
  exists fut st1 st2,
    enqueue thrower (make_pool 1) = Normal fut st1
    /\ run_schedule [0; 0] st1 = Terminated st2
    /\ shared_states st2 !! fut = Some not_ready
    /\ future_get fut st2 = Blocked st2.
Proof.
  refine (proj2 (task_exception_terminates (make_pool 1) thrower
                   (user_exception 7) 0 _ _ _ _ _)).
  - constructor.
  - reflexivity.
  - reflexivity.
  - reflexivity.
  - reflexivity.
Defined.

(** A pool of one thread destroyed with two tasks in its queue. *)
Example destroy_with_two_queued :
  (do f1 <- enqueue lambda_1 ;
   do f2 <- enqueue lambda_2 ;
   destroy [0]) (make_pool 1)
  = Normal tt
      (Pool false [returned] []
         [ready_exception broken_promise; ready_exception broken_promise]).
Proof. reflexivity. Qed.

Lemma shutdown_discards_queued_tasks_witness :
  m_tasks (Pool (ResultT := Z) false [returned] []
             [ready_exception broken_promise; ready_exception broken_promise])
  = []
  /\ forall q, q ∈ [Queued 0 lambda_1; Queued 1 lambda_2] ->
       future_get (ResultT := Z) (captured_p q)
         (Pool false [returned] []
            [ready_exception broken_promise; ready_exception broken_promise])
       = Thrown broken_promise
           (Pool false [returned] []
              [ready_exception broken_promise; ready_exception broken_promise]).
Proof.
  refine (proj2 (proj2 (shutdown_discards_queued_tasks
    (Pool true [waiting] [Queued 0 lambda_1; Queued 1 lambda_2]
       [not_ready; not_ready]) _)) [0] _ _).
  - apply (reachable_enqueue
             (Pool true [waiting] [Queued 0 lambda_1] [not_ready])
             lambda_2 1); [|reflexivity].
    apply (reachable_enqueue (make_pool 1) lambda_1 0); [|reflexivity].
    constructor.
  - reflexivity.
Defined.

End ThreadPoolProofs.

(* ===================================================================== *)
(** ** retry: the whole loop                                              *)
(* ===================================================================== *)

Module RetryLoop.
Import Cxx Cxx.Notations CxxFacts RecvSender.

Section attempts.
Context {S O V E W : Type}.
Variable inner_connect : M S O.
Variable inner_start :
  O -> receiver V E (_op S O V W * W) -> M (_op S O V W * W) unit.

Abbreviation _retry := (_retry inner_connect inner_start).
Abbreviation _retry_receiver := (_retry_receiver inner_connect inner_start).

(** [::start(::connect(retry(s), r))] for a sender [s] and a receiver [r]. *)
Definition start_retry (s : S) (r : receiver V exception W) (fuel : nat)
    : M W unit :=
  do op <- _retry_sender_connect inner_connect s r ;
  start_temporary op (_op_start inner_connect inner_start fuel).

(** The inner sender in its successive states: connecting it in state
    [states j] yields the operation state [ops j] and leaves it in state
    [states (j + 1)]. *)
Variable states : nat -> S.
Variable ops : nat -> O.
Variable errors : nat -> E.

(** The attempt [j] started with [fuel] retries left, in the state that
    connecting it has left. *)
Definition attempt (r : receiver V exception W) (w : W) (j fuel : nat)
    : result (_op S O V W * W) unit :=
  noexcept (inner_start (ops j) (_retry_receiver fuel))
    (Op (states (Datatypes.S j)) r (Some (ops j)), w).

Lemma noexcept_on_world {A} (c : M W A) (st : _op S O V W * W) :
  noexcept (on_world c) st = on_world (noexcept c) st.
Proof. unfold noexcept, on_world, zoom. by destruct (c st.2). Qed.

Lemma retry_unfold r w s o fuel :
  _retry (Datatypes.S fuel) (Op s r o, w)
  = match inner_connect s with
    | Normal o' s' =>
        noexcept (inner_start o' (_retry_receiver fuel)) (Op s' r (Some o'), w)
    | Thrown ex s' => on_world (set_error r ex) (Op s' r None, w)
    | Terminated s' => Terminated (Op s' r None, w)
    | Blocked s' => Blocked (Op s' r None, w)
    | Undefined => Undefined
    | OutOfFuel => OutOfFuel
    end.
Proof.
  cbn [RecvSender._retry]. unfold noexcept at 1.
  cbv [try_catch bind emplace_o _connect on_sender zoom set_o deref_o
       get_r get modify ret undefined]; cbn.
  destruct (inner_connect s) as [o' s'|ex s'|s'|s'| |]; cbn; try done.
  - pose proof (noexcept_not_thrown
      (inner_start o' (_retry_receiver fuel)) (Op s' r (Some o'), w)) as Hn.
    fold (_retry_receiver fuel).
    by destruct (noexcept _ _).
  - unfold on_world, zoom, set_error, noexcept. cbn.
    by destruct (set_error_ r ex w).
Qed.

Lemma start_retry_attempt r w fuel :
  inner_connect (states 0) = Normal (ops 0) (states 1) ->
  start_retry (states 0) r fuel w
  = match attempt r w 0 fuel with
    | Normal a st => Normal a st.2
    | Thrown e st => Thrown e st.2
    | Terminated st => Terminated st.2
    | Blocked st => Blocked st.2
    | Undefined => Undefined
    | OutOfFuel => OutOfFuel
    end.
Proof.
  intros Hc. unfold start_retry, bind at 1, _retry_sender_connect.
  cbv [bind emplace_o _connect on_sender zoom set_o get modify ret]. cbn.
  rewrite Hc. cbn. unfold start_temporary, _op_start, attempt.
  unfold noexcept at 1, bind, deref_o, get, ret. cbn.
  fold (_retry_receiver fuel).
  pose proof (noexcept_not_thrown (inner_start (ops 0) (_retry_receiver fuel))
                (Op (states 1) r (Some (ops 0)), w)) as Hn.
  by destruct (noexcept _ _).
Qed.

(** An attempt that signals an error is followed by the next attempt. *)
Lemma attempt_error r w j fuel :
  (forall r' st, inner_start (ops j) r' st = set_error r' (errors j) st) ->
  inner_connect (states (Datatypes.S j))
  = Normal (ops (Datatypes.S j)) (states (Datatypes.S (Datatypes.S j))) ->
  attempt r w j (Datatypes.S fuel) = attempt r w (Datatypes.S j) fuel.
Proof.
  intros Hfail Hc. unfold attempt.
  unfold noexcept at 1. rewrite Hfail. unfold set_error.
  change (set_error_ (_retry_receiver (Datatypes.S fuel)) (errors j))
    with (noexcept (_retry (Datatypes.S fuel))).
  rewrite noexcept_idem. unfold noexcept at 1.
  rewrite retry_unfold, Hc.
  fold (_retry_receiver fuel).
  pose proof (noexcept_not_thrown
    (inner_start (ops (Datatypes.S j)) (_retry_receiver fuel))
    (Op (states (Datatypes.S (Datatypes.S j))) r (Some (ops (Datatypes.S j))), w))
    as Hn.
  by destruct (noexcept _ _).
Qed.

Lemma attempts_error r w k : forall j fuel,
  (forall i, j <= i < j + k ->
     forall r' st, inner_start (ops i) r' st = set_error r' (errors i) st) ->
  (forall i, j < i <= j + k ->
     inner_connect (states i) = Normal (ops i) (states (Datatypes.S i))) ->
  attempt r w j (k + fuel) = attempt r w (j + k) fuel.
Proof.
  induction k as [|k IH]; intros j fuel Hfail Hc.
  - by rewrite Nat.add_0_r.
  - cbn [Nat.add]. rewrite attempt_error; [|apply Hfail; lia|apply Hc; lia].
    rewrite IH.
    + f_equal. lia.
    + intros i Hi. apply Hfail. lia.
    + intros i Hi. apply Hc. lia.
Qed.

(** X1. [retry] completes with the first completion of the inner sender
    that is not an error: when the first [k] operation states signal an
    error and the next one signals the value [v], the outer receiver gets
    [set_value(v)], and nothing else, after [k] restarts; an exception of
    the outer [set_value] then calls std::terminate, since the inner
    [start] is noexcept. *)
Theorem retry_completes_with_first_value
    (r : receiver V exception W) (w : W) (k fuel : nat) (v : V) :
  (forall i, i <= k ->
     inner_connect (states i) = Normal (ops i) (states (Datatypes.S i))) ->
  (forall i, i < k ->
     forall r' st, inner_start (ops i) r' st = set_error r' (errors i) st) ->
  (forall r' st, inner_start (ops k) r' st = set_value r' v st) ->
  start_retry (states 0) r (k + fuel) w = noexcept (set_value r v) w.
Proof.
  intros Hc Hfail Hval.
  rewrite start_retry_attempt by (apply Hc; lia).
  rewrite (attempts_error r w k 0 fuel).
  - unfold attempt. cbn [Nat.add]. unfold noexcept at 1. rewrite Hval.
    unfold set_value at 1. cbn.
    unfold noexcept, bind, get_r, get, ret, on_world, zoom. cbn.
    by destruct (set_value r v w).
  - intros i Hi. apply Hfail. lia.
  - intros i Hi. apply Hc. lia.
Qed.

(** X2. The same with a done completion: after [k] errors, the done
    signal of the next operation state reaches the outer receiver. *)
Theorem retry_completes_with_first_done
    (r : receiver V exception W) (w : W) (k fuel : nat) :
  (forall i, i <= k ->
     inner_connect (states i) = Normal (ops i) (states (Datatypes.S i))) ->
  (forall i, i < k ->
     forall r' st, inner_start (ops i) r' st = set_error r' (errors i) st) ->
  (forall r' st, inner_start (ops k) r' st = set_done r' st) ->
  start_retry (states 0) r (k + fuel) w = set_done r w.
Proof.
  intros Hc Hfail Hdone.
  rewrite start_retry_attempt by (apply Hc; lia).
  rewrite (attempts_error r w k 0 fuel).
  - unfold attempt. cbn [Nat.add]. unfold noexcept at 1. rewrite Hdone.
    unfold set_done at 1. cbn. rewrite !noexcept_idem.
    unfold noexcept, bind, get_r, get, ret, on_world, zoom, set_done, noexcept.
    cbn. by destruct (set_done_ r w).
  - intros i Hi. apply Hfail. lia.
  - intros i Hi. apply Hc. lia.
Qed.

(** X3. [retry] has no bound on the number of attempts and never reports
    the errors of the inner sender: when every operation state signals an
    error, no number of restarts completes the operation, and the outer
    receiver is never called. *)
Theorem retry_never_gives_up (r : receiver V exception W) (w : W) (fuel : nat) :
  (forall i, inner_connect (states i) = Normal (ops i) (states (Datatypes.S i))) ->
  (forall i r' st, inner_start (ops i) r' st = set_error r' (errors i) st) ->
  start_retry (states 0) r fuel w = OutOfFuel.
Proof.
  intros Hc Hfail.
  rewrite start_retry_attempt by apply Hc.
  replace fuel with (fuel + 0) by lia.
  rewrite (attempts_error r w fuel 0 0); [|by intros; apply Hfail|by intros; apply Hc].
  unfold attempt, noexcept at 1. rewrite Hfail. unfold set_error. by cbn.
Qed.

(** X4. An exception of a reconnection goes to the error channel of the
    outer receiver: after [k + 1] errors, when connecting the sender again
    throws [ex], the outer receiver gets [set_error(ex)].  An exception of
    the first connection leaves [connect] and reaches no receiver. *)
Theorem retry_reconnect_throws
    (r : receiver V exception W) (w : W) (k fuel : nat) (ex : exception) (s' : S) :
  (forall i, i <= k ->
     inner_connect (states i) = Normal (ops i) (states (Datatypes.S i))) ->
  (forall i, i <= k ->
     forall r' st, inner_start (ops i) r' st = set_error r' (errors i) st) ->
  inner_connect (states (Datatypes.S k)) = Thrown ex s' ->
  start_retry (states 0) r (k + Datatypes.S fuel) w = set_error r ex w
  /\ forall s0 ex0 s0',
       inner_connect s0 = Thrown ex0 s0' ->
       start_retry s0 r fuel w = Thrown ex0 w.
Proof.
  intros Hc Hfail Hthrow. split.
  - rewrite start_retry_attempt by (apply Hc; lia).
    rewrite (attempts_error r w k 0 (Datatypes.S fuel)).
    + unfold attempt. cbn [Nat.add]. unfold noexcept at 1.
      rewrite Hfail by lia. unfold set_error at 1.
      change (set_error_ (_retry_receiver (Datatypes.S fuel)) (errors k))
        with (noexcept (_retry (Datatypes.S fuel))).
      rewrite noexcept_idem. unfold noexcept at 1.
      rewrite retry_unfold, Hthrow.
      unfold on_world, zoom, set_error, noexcept. cbn.
      by destruct (set_error_ r ex w).
    + intros i Hi. apply Hfail. lia.
    + intros i Hi. apply Hc. lia.
  - intros s0 ex0 s0' H0. unfold start_retry, bind, _retry_sender_connect.
    cbv [bind emplace_o _connect on_sender zoom set_o get modify ret]. cbn.
    by rewrite H0.
Qed.

End attempts.

(** X5. An exception of the outer receiver's [set_value] is taken for an
    error of the inner operation: [fail_3::_op::start] catches it and calls
    [set_error] on the retry receiver, which restarts.  So when the outer
    receiver throws on the value 4, [retry(fail_3)] connects a fifth time
    and calls [set_value] again, with 5; the receiver's error channel is
    not called. *)
Theorem retry_fail_3_retries_after_receiver_exception
    (W : Type) (H : Stdout W) (r : receiver Z exception W) (w : W)
    (e : exception) (w5 : W) (fuel : nat) :
  4 <= fuel ->
  set_value r 4%Z
    (puts_to "success" (puts_to "error" (puts_to "error" (puts_to "error" w))))
  = Thrown e w5 ->
  is_thrown (set_value r 5%Z (puts_to "success" w5)) = false ->
  start_retry_fail_3 fail_3_op_start r fuel w
  = set_value r 5%Z (puts_to "success" w5).
Proof.
  intros Hfuel Hthrow Hr.
  destruct fuel as [|[|[|[|fuel]]]]; [lia..|].
  destruct r as [sv se sd].
  lazy in Hthrow, Hr |- *. rewrite Hthrow.
  lazy. by destruct (sv 5%Z (H "success" w5)).
Qed.

(** A receiver over a log of values that throws on values below 5 and
    records the others. *)
Definition rejects_below_5 : receiver Z exception (list Z) :=
  Receiver
    (fun v => if decide (v < 5)%Z then throw (user_exception v)
              else modify (fun log => log ++ [v]))
    (fun _ => terminate) terminate.

#[local] Instance stdout_ignored : Stdout (list Z) := fun _ log => log.

Lemma retry_fail_3_retries_after_receiver_exception_witness :
  start_retry_fail_3 fail_3_op_start rejects_below_5 4 []
  = Normal tt [5%Z].
Proof.
  exact (retry_fail_3_retries_after_receiver_exception (list Z) _
           rejects_below_5 [] (user_exception 4) [] 4 (le_n 4)
           eq_refl eq_refl).
Defined.

(** A sender that signals the error 7 every time. *)
Definition always_fails_start {W} (o : unit)
    (r : receiver Z nat (_op unit unit Z W * W)) : M (_op unit unit Z W * W) unit :=
  set_error r 7.

(** A sender whose operation state [n] (the number of connections, counted
    by the sender) signals the error [n] up to the second and the value [n]
    from the third on. *)
Definition third_time_start {W} (o : nat)
    (r : receiver Z nat (_op nat nat Z W * W)) : M (_op nat nat Z W * W) unit :=
  if decide (o < 2) then set_error r o else set_value r (Z.of_nat o).

Definition counting_connect : M nat nat := fun n => Normal n (Datatypes.S n).

(** A sender that is done at the second attempt. *)
Definition done_second_start {W} (o : nat)
    (r : receiver Z nat (_op nat nat Z W * W)) : M (_op nat nat Z W * W) unit :=
  if decide (o < 1) then set_error r o else set_done r.

(** A sender that cannot be connected a second time. *)
Definition connect_once : M nat nat :=
  fun n => if decide (n = 0) then Normal n (Datatypes.S n)
           else Thrown (runtime_error "connect") n.

Lemma retry_completes_with_first_value_witness :
  start_retry (W := list string) counting_connect third_time_start 0 sink (2 + 0) []
  = noexcept (set_value (sink : receiver Z exception (list string)) 2%Z) [].
Proof.
  apply (retry_completes_with_first_value counting_connect third_time_start
           (fun j => j) (fun j => j) (fun j => j) sink [] 2 0 2%Z).
  - reflexivity.
  - intros i Hi r' st. unfold third_time_start.
    destruct (decide (i < 2)); [done|lia].
  - reflexivity.
Defined.

Lemma retry_completes_with_first_done_witness :
  start_retry (W := list string) counting_connect done_second_start 0 sink (1 + 0) []
  = set_done (sink : receiver Z exception (list string)) [].
Proof.
  apply (retry_completes_with_first_done counting_connect done_second_start
           (fun j => j) (fun j => j) (fun j => j) sink [] 1 0).
  - reflexivity.
  - intros i Hi r' st. unfold done_second_start.
    destruct (decide (i < 1)); [done|lia].
  - reflexivity.
Defined.

Lemma retry_never_gives_up_witness :
  start_retry (W := list string) (ret tt) always_fails_start tt sink 100 []
  = OutOfFuel.
Proof.
  apply (retry_never_gives_up (ret tt) always_fails_start
           (fun _ => tt) (fun _ => tt) (fun _ => 7) sink [] 100).
  - reflexivity.
  - reflexivity.
Defined.

Lemma retry_reconnect_throws_witness :
  start_retry (W := list string) connect_once third_time_start 0
    sink (0 + 1) []
  = set_error (sink : receiver Z exception (list string)) (runtime_error "connect") [].
Proof.
  refine (proj1 (retry_reconnect_throws connect_once third_time_start
           (fun j => j) (fun j => j) (fun j => j) sink [] 0 0
           (runtime_error "connect") 1 _ _ _)).
  - intros i Hi. assert (i = 0) as -> by lia. reflexivity.
  - intros i Hi r' st. assert (i = 0) as -> by lia. reflexivity.
  - reflexivity.
Defined.

End RetryLoop.

(* ===================================================================== *)
(** ** ThreadPool: what the pool keeps and what it never does             *)
(* ===================================================================== *)

Module ThreadPoolInvariants.
Import Cxx Cxx.Notations CxxFacts ThreadPool ThreadPoolProofs.

Section invariants.
Context {ResultT : Type}.

Implicit Types (st : ThreadPool ResultT) (q : queued ResultT).

Lemma step_ready_stable st i st' p c :
  step_kind st i st' -> c <> not_ready ->
  shared_states st !! p = Some c -> shared_states st' !! p = Some c.
Proof.
  intros Hstep Hc Hp.
  destruct Hstep as [|Hi Hen|q rest Hi Hen Htasks|q v Hi Ht Hq]; cbn; try done.
  rewrite list_lookup_insert_ne; [done|]. intros <-. congruence.
Qed.

Lemma run_schedule_ready_stable schedule p c : forall st st',
  c <> not_ready -> shared_states st !! p = Some c ->
  run_schedule schedule st = Normal tt st' ->
  shared_states st' !! p = Some c.
Proof.
  induction schedule as [|i schedule IH]; intros st st' Hc Hp.
  - by intros [= <-].
  - intros (st1 & H1%worker_step_normal & H2)%run_schedule_cons.
    eapply IH; [done| |done]. by eapply step_ready_stable.
Qed.

Lemma destroy_all_ready_stable l p c : forall st st',
  c <> not_ready -> shared_states st !! p = Some c ->
  destroy_all l st = Normal tt st' ->
  shared_states st' !! p = Some c.
Proof.
  induction l as [|q l IH]; intros st st' Hc Hp.
  - by intros [= <-].
  - cbn. unfold bind at 1, promise_destroy.
    destruct (shared_states st !! captured_p q) as [[| |]|] eqn:Hq; try done.
    + apply IH; [done|]. cbn. rewrite list_lookup_insert_ne; [done|].
      intros <-. congruence.
    + by apply IH.
    + by apply IH.
Qed.

(** X6. A shared state is written once: a future that is ready, with a
    value or with an exception, stays as it is through every step of every
    worker, every later [enqueue], and the destruction of the pool. *)
Theorem shared_state_set_once st (p : nat) (c : shared_state ResultT) :
  c <> not_ready ->
  shared_states st !! p = Some c ->
  (forall schedule st',
     run_schedule schedule st = Normal tt st' ->
     shared_states st' !! p = Some c)
  /\ (forall task fut st',
        enqueue task st = Normal fut st' -> shared_states st' !! p = Some c)
  /\ (forall schedule st',
        destroy schedule st = Normal tt st' -> shared_states st' !! p = Some c).
Proof.
  intros Hc Hp. split; [|split].
  - intros schedule st'. by apply run_schedule_ready_stable.
  - intros task fut st' [= _ <-]. cbn. by apply lookup_app_l_Some.
  - intros schedule st'. unfold destroy, stop.
    unfold bind at 1. unfold bind at 1. unfold modify at 1. unfold bind at 1.
    destruct (run_schedule schedule _) as [[] st1| | | | |] eqn:Hs; try done.
    destruct (forallb is_returned (m_pool st1)); [|done].
    unfold bind, get. apply destroy_all_ready_stable; [done|].
    by eapply (run_schedule_ready_stable schedule p c (disabled st)).
Qed.

(** X7. In a pool reached from its construction, a step of a worker
    either completes or ends the process: it has no undefined behaviour
    and throws nothing, in particular no promise is set twice.  It ends the
    process exactly when the worker is calling a task that throws; when the
    task returns [v] instead, the step completes with the task's future
    ready with [v] and the worker back at the wait. *)
Theorem worker_step_outcomes st (i : nat) :
  reachable st ->
  (worker_step i st = Terminated st
   <-> exists q e, m_pool st !! i = Some (running q)
                   /\ captured_t q tt = throws e)
  /\ ((exists st', worker_step i st = Normal tt st')
      <-> ~ exists q e, m_pool st !! i = Some (running q)
                        /\ captured_t q tt = throws e)
  /\ (forall q v,
        m_pool st !! i = Some (running q) -> captured_t q tt = returns v ->
        worker_step i st
        = Normal tt
            (Pool (m_enabled st) (<[i := waiting]> (m_pool st)) (m_tasks st)
               (<[captured_p q := ready_value v]> (shared_states st)))).
Proof.
  intros Hwf%reachable_wf.
  assert (forall q v,
            m_pool st !! i = Some (running q) -> captured_t q tt = returns v ->
            worker_step i st
            = Normal tt
                (Pool (m_enabled st) (<[i := waiting]> (m_pool st)) (m_tasks st)
                   (<[captured_p q := ready_value v]> (shared_states st))))
    as Hreturns.
  { intros q v Hi Ht. unfold worker_step. rewrite Hi.
    unfold noexcept, bind, execute. rewrite Ht. unfold promise_set_value.
    rewrite (wf_running_not_ready st Hwf i q Hi).
    unfold promise_destroy. cbn.
    rewrite list_lookup_insert_eq; [done|].
    eapply lookup_lt_Some. by apply (wf_running_not_ready st Hwf i q). }
  assert (forall q e,
            m_pool st !! i = Some (running q) -> captured_t q tt = throws e ->
            worker_step i st = Terminated st) as Hthrows.
  { intros q e Hi Ht. unfold worker_step. rewrite Hi.
    unfold noexcept, bind, execute. by rewrite Ht. }
  assert ((exists q e, m_pool st !! i = Some (running q)
                       /\ captured_t q tt = throws e)
          \/ exists st', worker_step i st = Normal tt st') as Hcases.
  { destruct (m_pool st !! i) as [[|q|]|] eqn:Hi.
    - right. unfold worker_step. rewrite Hi.
      destruct (negb (m_enabled st)); [by eexists|].
      destruct (m_tasks st); by eexists.
    - destruct (captured_t q tt) as [v|e] eqn:Ht.
      + right. eexists. by apply (Hreturns q v).
      + left. by exists q, e.
    - right. unfold worker_step. rewrite Hi. by eexists.
    - right. unfold worker_step. rewrite Hi. by eexists. }
  split; [|split; [|done]].
  - split.
    + intros Hterm. destruct Hcases as [?|[st' Hn]]; [done|]. congruence.
    + intros (q & e & Hi & Ht). by apply (Hthrows q e).
  - split.
    + intros [st' Hn] (q & e & Hi & Ht).
      rewrite (Hthrows q e Hi Ht) in Hn. discriminate.
    + intros Hno. by destruct Hcases.
Qed.

(** X8. The queue is served first in, first out: a waiting worker that
    runs alone for [2 * k] steps calls the first [k] queued tasks (when
    they return), making their futures ready with their values, and leaves
    the other tasks in the queue, in their order, with futures not ready. *)
Theorem queue_served_in_order (i : nat) (served : list (queued ResultT)) :
  forall st rest,
    reachable st ->
    m_enabled st = true ->
    m_pool st !! i = Some waiting ->
    m_tasks st = served ++ rest ->
    (forall q, q ∈ served -> exists v, captured_t q tt = returns v) ->
    exists st',
      run_schedule (replicate (2 * length served) i) st = Normal tt st'
      /\ m_tasks st' = rest
      /\ m_pool st' = m_pool st
      /\ (forall q v, q ∈ served -> captured_t q tt = returns v ->
            shared_states st' !! captured_p q = Some (ready_value v))
      /\ (forall q, q ∈ rest ->
            shared_states st' !! captured_p q = Some not_ready).
Proof.
  induction served as [|q served IH]; intros st rest Hreach Hen Hi Htasks Hret.
  - exists st. split; [done|]. split; [done|]. split; [done|]. split.
    + intros q v []%elem_of_nil.
    + intros q Hq. apply (wf_queue_not_ready st (reachable_wf st Hreach)).
      by rewrite Htasks.
  - destruct (Hret q) as [v Hv]; [by left|].
    pose proof (reachable_wf st Hreach) as Hwf.
    pose proof (serve_one st i q (served ++ rest) v Hwf Hen Hi Htasks Hv) as Hone.
    set (st1 := Pool true (m_pool st) (served ++ rest)
                  (<[captured_p q := ready_value v]> (shared_states st))) in *.
    assert (reachable st1) as Hreach1.
    { destruct (run_schedule_cons _ _ _ _ Hone) as (sta & Ha & Hb).
      destruct (run_schedule_cons _ _ _ _ Hb) as (stb & Hb' & [= <-]).
      eapply reachable_step; [|done]. by eapply reachable_step. }
    destruct (IH st1 rest Hreach1 eq_refl Hi eq_refl)
      as (st' & Hrun & Htasks' & Hpool' & Hserved & Hrest).
    { intros q' Hq'. apply Hret. by right. }
    exists st'. split; [|split; [done|split; [done|split; [|done]]]].
    + replace (replicate (2 * length (q :: served)) i)
        with ([i; i] ++ replicate (2 * length served) i).
      * by rewrite (run_schedule_app _ _ _ _ Hone).
      * cbn [length]. replace (2 * S (length served))
          with (2 + 2 * length served) by lia.
        by rewrite replicate_add.
    + intros q' v' [->|Hq']%elem_of_cons Hv'; [|by apply Hserved].
      rewrite Hv in Hv'. injection Hv' as <-.
      eapply (run_schedule_ready_stable _ _ _ st1); [done| |done].
      cbn. apply list_lookup_insert_eq. eapply lookup_lt_Some.
      apply (wf_queue_not_ready st Hwf). rewrite Htasks. by left.
Qed.

(** X9. A task that a worker has popped before [stop()] is still called:
    with [m_enabled] cleared, the worker finishes the call, fulfils the
    promise, and only then leaves its loop; the queue is not touched. *)
Theorem popped_task_completes_at_shutdown st (i : nat) q (v : ResultT) :
  reachable st ->
  m_pool st !! i = Some (running q) ->
  captured_t q tt = returns v ->
  run_schedule [i; i] (disabled st)
  = Normal tt
      (Pool false (<[i := returned]> (m_pool st)) (m_tasks st)
         (<[captured_p q := ready_value v]> (shared_states st))).
Proof.
  intros Hwf%reachable_wf Hi Ht.
  pose proof (wf_running_not_ready st Hwf i q Hi) as Hp.
  assert (i < length (m_pool st)) as Hlt by by eapply lookup_lt_Some.
  cbn. unfold bind at 1, worker_step at 1. cbn. rewrite Hi.
  unfold noexcept, bind at 1, execute. rewrite Ht.
  unfold promise_set_value. cbn. rewrite Hp.
  unfold bind at 1, promise_destroy. cbn.
  rewrite list_lookup_insert_eq by by eapply lookup_lt_Some.
  unfold modify, set_worker. cbn.
  unfold bind, worker_step. cbn.
  rewrite list_lookup_insert_eq by done. cbn.
  unfold ret, set_worker. cbn. by rewrite list_insert_insert_eq.
Qed.

(** X10. A pool constructed with no thread (the default argument,
    [std::thread::hardware_concurrency()], may be 0) accepts tasks and never
    calls them: whatever is scheduled, the pool stays as [enqueue] left it
    and the future is never ready. *)
Theorem pool_without_threads_never_runs (f : TaskT ResultT) (schedule : list nat) :
  exists fut st1,
    enqueue f (make_pool 0) = Normal fut st1
    /\ run_schedule schedule st1 = Normal tt st1
    /\ future_get fut st1 = Blocked st1.
Proof.
  eexists _, _. split; [reflexivity|]. split; [|reflexivity].
  induction schedule as [|i schedule IH]; [done|].
  cbn. unfold bind, worker_step. cbn. apply IH.
Qed.

End invariants.

Lemma shared_state_set_once_witness :
  shared_states
    (Pool true [waiting] [Queued 1 lambda_2] [ready_value 1%Z; not_ready])
    !! 0
  = Some (ready_value 1%Z).
Proof.
  refine (proj1 (proj2 (shared_state_set_once
    (Pool true [waiting] [] [ready_value 1%Z]) 0 (ready_value 1%Z) _ _))
    lambda_2 1 _ eq_refl).
  - discriminate.
  - reflexivity.
Defined.

Lemma worker_step_outcomes_witness :
  worker_step 0 (Pool true [running (Queued 0 thrower)] [] [not_ready])
  = Terminated (Pool true [running (Queued 0 thrower)] [] [not_ready])
  /\ worker_step 0 (Pool true [running (Queued 0 lambda_1)] [] [not_ready])
     = Normal tt (Pool true [waiting] [] [ready_value 1%Z]).
Proof.
  split.
  - refine (proj2 (proj1 (worker_step_outcomes
              (Pool true [running (Queued 0 thrower)] [] [not_ready]) 0 _)) _).
    + apply (reachable_step (Pool true [waiting] [Queued 0 thrower] [not_ready]) 0);
        [|reflexivity].
      apply (reachable_enqueue (make_pool 1) thrower 0); [|reflexivity].
      constructor.
    + exists (Queued 0 thrower), (user_exception 7). by split.
  - refine (proj2 (proj2 (worker_step_outcomes
              (Pool true [running (Queued 0 lambda_1)] [] [not_ready]) 0 _))
              (Queued 0 lambda_1) 1%Z eq_refl eq_refl).
    apply (reachable_step (Pool true [waiting] [Queued 0 lambda_1] [not_ready]) 0);
      [|reflexivity].
    apply (reachable_enqueue (make_pool 1) lambda_1 0); [|reflexivity].
    constructor.
Defined.

Lemma two_queued_reachable :
  reachable (Pool true [waiting] [Queued 0 lambda_1; Queued 1 lambda_2]
               [not_ready; not_ready]).
Proof.
  apply (reachable_enqueue
           (Pool true [waiting] [Queued 0 lambda_1] [not_ready])
           lambda_2 1); [|reflexivity].
  apply (reachable_enqueue (make_pool 1) lambda_1 0); [|reflexivity].
  constructor.
Defined.

Lemma queue_served_in_order_witness :
  exists st',
    run_schedule (replicate (2 * length [Queued 0 lambda_1]) 0)
      (Pool true [waiting] [Queued 0 lambda_1; Queued 1 lambda_2]
         [not_ready; not_ready])
    = Normal tt st'
    /\ m_tasks st' = [Queued 1 lambda_2]
    /\ m_pool st' = [waiting]
    /\ (forall q v, q ∈ [Queued 0 lambda_1] -> captured_t q tt = returns v ->
          shared_states st' !! captured_p q = Some (ready_value v))
    /\ (forall q, q ∈ [Queued 1 lambda_2] ->
          shared_states st' !! captured_p q = Some not_ready).
Proof.
  apply (queue_served_in_order 0 [Queued 0 lambda_1]
           (Pool true [waiting] [Queued 0 lambda_1; Queued 1 lambda_2]
              [not_ready; not_ready])
           [Queued 1 lambda_2]).
  - apply two_queued_reachable.
  - reflexivity.
  - reflexivity.
  - reflexivity.
  - intros q Hq. apply list_elem_of_singleton in Hq as ->. by exists 1%Z.
Defined.

Lemma popped_task_completes_at_shutdown_witness :
  run_schedule [0; 0]
    (disabled (Pool true [running (Queued 0 lambda_1)] [] [not_ready]))
  = Normal tt (Pool false [returned] [] [ready_value 1%Z]).
Proof.
  refine (popped_task_completes_at_shutdown
            (Pool true [running (Queued 0 lambda_1)] [] [not_ready])
            0 (Queued 0 lambda_1) 1%Z _ eq_refl eq_refl).
  apply (reachable_step (Pool true [waiting] [Queued 0 lambda_1] [not_ready]) 0);
    [|reflexivity].
  apply (reachable_enqueue (make_pool 1) lambda_1 0); [|reflexivity].
  constructor.
Defined.

End ThreadPoolInvariants.

(* ===================================================================== *)
(** ** count_lines: the edges of the loop                                 *)
(* ===================================================================== *)

Module CountLinesEdges.
Import Cxx Cxx.Notations CountLines CountLinesProofs.

(** The buffer as [count_lines] allocates it. *)
Definition fresh_buffer : list Byte.byte := replicate (Z.to_nat bufferSize) Byte.x00.

(** X11. For an empty file [count_lines] returns 0 and issues no read: the
    result does not depend on what a read would do, and no iteration of the
    loop is needed. *)
Theorem count_lines_empty_file
    (fs : gmap string read_only_file) (path : string) (file : read_only_file)
    (fuel : nat) :
  fs !! path = Some file ->
  contents file = [] ->
  count_lines fuel fs path = Normal 0%Z fresh_buffer.
Proof.
  intros Hpath Hempty. unfold count_lines, open. rewrite Hpath.
  unfold bind, ret, size. rewrite Hempty. by destruct fuel.
Qed.

(** X12. A read that fails is not retried and no partial count is
    returned: the exception of the read leaves [count_lines], from whatever
    offset inside the file the loop has reached; so for a file that is not
    empty whose first read fails, [count_lines] throws what the read
    threw. *)
Theorem count_lines_read_failure
    (fs : gmap string read_only_file) (path : string) (file : read_only_file)
    (e : exception) :
  fs !! path = Some file ->
  (size file < 2 ^ 64)%Z ->
  (forall fuel (k : nat) count buffer,
     k < length (contents file) ->
     completes file (Z.of_nat k) (Z.min 4096 (size file - Z.of_nat k))
     = read_failed e ->
     count_lines_loop (S fuel) file (size file) count (Z.of_nat k) buffer
     = Thrown e buffer)
  /\ (forall fuel,
        contents file <> [] ->
        completes file 0 (Z.min 4096 (size file)) = read_failed e ->
        count_lines (S fuel) fs path = Thrown e fresh_buffer).
Proof.
  intros Hpath Hsize.
  assert (forall fuel (k : nat) count buffer,
            k < length (contents file) ->
            completes file (Z.of_nat k) (Z.min 4096 (size file - Z.of_nat k))
            = read_failed e ->
            count_lines_loop (S fuel) file (size file) count (Z.of_nat k) buffer
            = Thrown e buffer) as Hloop.
  { intros fuel k count buffer Hk Hfail. cbn [count_lines_loop].
    destruct (decide _) as [_|Hge]; [|unfold size in Hge; lia].
    rewrite (wrap64_small (size file - Z.of_nat k)) by (unfold size in *; lia).
    change bufferSize with 4096%Z.
    unfold bind, read. by rewrite Hfail. }
  split; [done|].
  intros fuel Hne Hfail. unfold count_lines, open. rewrite Hpath.
  unfold bind at 1, ret.
  apply (Hloop fuel 0).
  - destruct (contents file); [done|cbn; lia].
  - by rewrite Z.sub_0_r.
Qed.

(** X13. The loop relies on every read making progress: when the read at
    the start of a file that is not empty completes with 0 bytes, the
    offset never advances and [count_lines] does not return, whatever the
    number of iterations. *)
Theorem count_lines_zero_byte_read
    (fs : gmap string read_only_file) (path : string) (file : read_only_file)
    (fuel : nat) :
  fs !! path = Some file ->
  (size file < 2 ^ 64)%Z ->
  contents file <> [] ->
  completes file 0 (Z.min 4096 (size file)) = bytes_read 0 ->
  count_lines fuel fs path = OutOfFuel.
Proof.
  intros Hpath Hsize Hne Hzero. unfold count_lines, open. rewrite Hpath.
  unfold bind at 1, ret.
  assert (0 < size file)%Z as Hpos.
  { unfold size. destruct (contents file); [done|cbn; lia]. }
  generalize (replicate (Z.to_nat bufferSize) Byte.x00).
  induction fuel as [|fuel IH]; intros buffer.
  - cbn. by destruct (decide _).
  - cbn [count_lines_loop]. destruct (decide _) as [_|]; [|lia].
    rewrite Z.sub_0_r, (wrap64_small (size file)) by lia.
    change bufferSize with 4096%Z.
    unfold bind at 1, read. rewrite Hzero. cbn [Z.to_nat take app length drop].
    unfold bind, modify, ret, get.
    destruct (decide _) as [|_]; [lia|].
    unfold count_newlines. cbn [Z.to_nat take filter length Z.of_nat].
    change (wrap64 (0 + 0)) with 0%Z. apply IH.
Qed.

(** A file whose reads fail, and a file whose reads return nothing. *)
Definition unreadable : read_only_file :=
  File [Byte.x61; Byte.x0a] (fun _ _ => read_failed (runtime_error "read")).

Definition stalled : read_only_file :=
  File [Byte.x61; Byte.x0a] (fun _ _ => bytes_read 0).

Definition empty_file : read_only_file :=
  File [] (fun _ _ => read_failed (runtime_error "read")).

Lemma count_lines_empty_file_witness :
  count_lines 0 {[ "foo.txt"%string := empty_file ]} "foo.txt"
  = Normal 0%Z fresh_buffer.
Proof.
  exact (count_lines_empty_file {[ "foo.txt"%string := empty_file ]}
           "foo.txt" empty_file 0 eq_refl eq_refl).
Defined.

Lemma count_lines_read_failure_witness :
  count_lines 1 {[ "foo.txt"%string := unreadable ]} "foo.txt"
  = Thrown (runtime_error "read") fresh_buffer.
Proof.
  refine (proj2 (count_lines_read_failure
    {[ "foo.txt"%string := unreadable ]} "foo.txt" unreadable
    (runtime_error "read") eq_refl eq_refl) 0 _ eq_refl).
  discriminate.
Defined.

Lemma count_lines_zero_byte_read_witness :
  count_lines 1000 {[ "foo.txt"%string := stalled ]} "foo.txt" = OutOfFuel.
Proof.
  refine (count_lines_zero_byte_read
    {[ "foo.txt"%string := stalled ]} "foo.txt" stalled 1000
    eq_refl eq_refl _ eq_refl).
  discriminate.
Defined.

End CountLinesEdges.

(* ===================================================================== *)
(** ** then and sync_wait: composition and failure                        *)
(* ===================================================================== *)

Module PresPropLaws.
Import Cxx Cxx.Notations CxxFacts PresProp PresPropProofs.

(** [g] after [f], when [f] returns. *)
Definition and_then {A B C} (f : A -> outcome B) (g : B -> outcome C)
    : A -> outcome C :=
  fun a =>
    match f a with
    | returns b => g b
    | throws e => throws e
    end.

(** The two ways a task delivers [v]: it calls [p.set_value(v)] itself, or
    it starts a detached thread that does. *)
Definition calls_set_value {A} (t : task A) (v : A) : Prop :=
  forall (T : Type) (p : promise T A) (w : world T), t T p w = set_value p v w.

Definition starts_thread {A} (t : task A) (v : A) : Prop :=
  forall (T : Type) (p : promise T A) (w : world T),
    t T p w = Normal tt (World (state w) (detached w ++ [set_value_thread p v])).

(** A task that calls the promise twice. *)
Definition sets_twice {A} (v1 v2 : A) : task A :=
  fun T p => set_value p v1 ;; set_value p v2.

(** The statement [p.set_exception(a);] in the body of a task.  Started
    with a promise for which the call has no instantiation, the task is not
    a program and has no run; [undefined] marks that case, which
    [sync_wait] of the task itself never reaches. *)
Definition call_set_exception {T A} (p : promise T A) (a : exception_argument)
    : M (world T) unit :=
  match set_exception p a with
  | Some call => call
  | None => undefined
  end.

(** A task that sets a value and then an exception, given as a
    [std::exception_ptr]. *)
Definition sets_then_fails {A} (v : A) (e : exception) : task A :=
  fun T p => set_value p v ;; call_set_exception p (by_exception_ptr e).

(** A task that returns without calling the promise. *)
Definition drops_promise {A} : task A := fun T p => ret tt.

Lemma set_value_fuse {T A B C} (p : promise T C)
    (f : A -> outcome B) (g : B -> outcome C) (v : A) (w : world T) :
  set_value (then_promise (then_promise p g) f) v w
  = set_value (then_promise p (and_then f g)) v w.
Proof. cbn. unfold and_then. by destruct (f v). Qed.

Lemma starts_thread_new_thread : starts_thread new_thread tt.
Proof. by intros T p w. Qed.

(** X14. Two [then] stages are one stage with the composed continuation:
    for a task that delivers [v], [sync_wait] of [then(then(t, f), g)] and
    of [then(t, g after f)] end the same way for every schedule, also when
    a continuation throws. *)
Theorem then_stages_fuse {A B C} (t : task A) (v : A)
    (f : A -> outcome B) (g : B -> outcome C) (schedule : list nat) :
  calls_set_value t v \/ starts_thread t v ->
  sync_wait schedule (then_ (then_ t f) g)
  = sync_wait schedule (then_ t (and_then f g)).
Proof.
  intros [Ht|Ht]; unfold sync_wait, then_, bind; rewrite !Ht.
  - by rewrite set_value_fuse.
  - destruct schedule as [|i schedule]; cbn -[Nat.modulo]; [done|].
    rewrite !Nat.mod_1_r. cbn.
    unfold bind, noexcept, and_then. cbn. by destruct (f v).
Qed.

(** X15. An exception of a continuation is not stored in the state:
    [set_value] of the wrapping promise lets it through.  When the task
    calls [set_value] itself, the exception leaves [sync_wait]; when the
    call is made on a detached thread, as with [new_thread], it leaves the
    thread's function and std::terminate is called.  The state is still
    unset in both cases. *)
Theorem continuation_exception_not_stored {A T} (t : task A) (v : A)
    (f : A -> outcome T) (e : exception) :
  f v = throws e ->
  (calls_set_value t v ->
   forall schedule,
     sync_wait schedule (then_ t f) = Thrown e (World monostate []))
  /\ (starts_thread t v ->
      forall i schedule,
        sync_wait (i :: schedule) (then_ t f) = Terminated (World monostate [])).
Proof.
  intros Hf. split; intros Ht; intros; unfold sync_wait, then_, bind;
    rewrite Ht.
  - cbn. by rewrite Hf.
  - cbn -[Nat.modulo]. rewrite Nat.mod_1_r. cbn.
    unfold bind, noexcept. cbn. by rewrite Hf.
Qed.

(** X16. The state is not single-assignment: [_set] emplaces whatever it
    is given.  When a task calls the promise twice before [sync_wait]
    waits, the second call decides: the second value is returned (through
    the continuations of [then], which are called for both values), and an
    exception set after a value is rethrown. *)
Theorem last_set_wins {A B} (v1 v2 : A) (f : A -> B) (e : exception)
    (schedule : list nat) :
  sync_wait schedule (sets_twice v1 v2) = Normal v2 (World (value v2) [])
  /\ sync_wait schedule (then_ (sets_twice v1 v2) (returning f))
     = Normal (f v2) (World (value (f v2)) [])
  /\ sync_wait schedule (sets_then_fails v1 e)
     = Thrown e (World (exception_ptr e) []).
Proof.
  split; [|split]; unfold sync_wait, sets_twice, sets_then_fails, then_, bind;
    cbn; by destruct schedule.
Qed.

(** X17. [sync_wait] returns only once the state has been set: for a task
    that returns without calling the promise and starts no thread, it
    waits for ever. *)
Theorem dropped_promise_blocks {T} (t : task T) (schedule : list nat) :
  (forall w, t T _promise w = Normal tt w) ->
  sync_wait schedule t = Blocked (World monostate []).
Proof.
  intros Ht. unfold sync_wait, bind at 1. rewrite Ht.
  unfold bind. by destruct schedule.
Qed.

Lemma then_stages_fuse_witness :
  sync_wait [0]
    (then_ (then_ new_thread (returning (fun _ : unit => 6%Z)))
       (fun i : Z => throws (B := Z) (user_exception i)))
  = sync_wait [0]
      (then_ new_thread
         (and_then (returning (fun _ : unit => 6%Z))
            (fun i : Z => throws (B := Z) (user_exception i)))).
Proof.
  exact (then_stages_fuse new_thread tt (returning (fun _ : unit => 6%Z))
           (fun i : Z => throws (B := Z) (user_exception i)) [0]
           (or_intror starts_thread_new_thread)).
Defined.

Lemma continuation_exception_not_stored_witness :
  sync_wait [0]
    (then_ new_thread (fun _ : unit => throws (B := Z) (user_exception 1)))
  = Terminated (World monostate []).
Proof.
  exact (proj2 (continuation_exception_not_stored new_thread tt
                  (fun _ : unit => throws (B := Z) (user_exception 1))
                  (user_exception 1) eq_refl)
           starts_thread_new_thread 0 []).
Defined.

Lemma dropped_promise_blocks_witness :
  sync_wait [0; 1] (drops_promise (A := Z)) = Blocked (World monostate []).
Proof.
  exact (dropped_promise_blocks drops_promise [0; 1] (fun w => eq_refl)).
Defined.

End PresPropLaws.

(* ===================================================================== *)
(** ** Callbacks composed: compose_callback, bulk_execute, submit         *)
(* ===================================================================== *)

Module AllPropCompose.
Import Cxx Cxx.Notations CxxFacts AllProp.

(** The exception a callback's error channel gets for a thrown [e]. *)
Definition wrapped (e : exception) : exception :=
  callback_invocation_error "invocation error" (Some e).

(** What [invoke_callback] makes of the result of invoking a callback
    whose error channel is [f]. *)
Definition routed {W} (f : callback_signal W) (r : result W unit)
    : result W unit :=
  match r with
  | Thrown e st => noexcept (error f (wrapped e)) st
  | r => r
  end.

Lemma invoke_callback_callback {W Args} (c : callback W Args) args st :
  invoke_callback (as_invocable c) args st
  = routed (cb_signal c) (invoke (as_invocable c) args st).
Proof.
  unfold invoke_callback, try_invoke_callback. cbn [signals as_invocable].
  rewrite noexcept_idem. unfold noexcept at 1, try_catch, routed.
  destruct (invoke (as_invocable c) args st) as [a st'|e st'|st'|st'| |];
    try done.
  change (make_callback_invocation_error (Some e)) with (wrapped e).
  pose proof (noexcept_not_thrown (error (cb_signal c) (wrapped e)) st').
  by destruct (noexcept _ st').
Qed.

Lemma invoke_composed_callback {W R} (c : callback W R) (fn : M W R) (st : W) :
  invoke_callback (as_invocable (compose_callback c fn)) tt st
  = match fn st with
    | Normal x st1 => invoke_callback (as_invocable c) x st1
    | Thrown e st1 => noexcept (error (cb_signal c) (wrapped e)) st1
    | Terminated st1 => Terminated st1
    | Blocked st1 => Blocked st1
    | Undefined => Undefined
    | OutOfFuel => OutOfFuel
    end.
Proof.
  rewrite invoke_callback_callback.
  unfold invoke at 1. cbn [as_invocable is_nothrow_invocable call_operator
                           compose_callback cb_call cb_nothrow cb_signal].
  unfold bind. destruct (fn st) as [x st1|e st1|st1|st1| |]; try done.
  + rewrite invoke_callback_callback. unfold routed.
    destruct (invoke (as_invocable c) x st1); try done.
    cbn [error]. by rewrite !noexcept_idem.
  + unfold routed. cbn [error]. by rewrite !noexcept_idem.
Qed.

(** X18. A callback composed with a function: invoking it through
    [invoke_callback] runs [fn] and then invokes [c] on the result, as
    [invoke_callback(c, result)] would; when [fn] throws, [c] is not
    invoked and its error channel gets the wrapped exception, once.
    [done] and [error] of the composed callback are those of [c] and do
    not run [fn]. *)
Theorem compose_callback_routes {W R} (c : callback W R) (fn : M W R) (st : W) :
  invoke_callback (as_invocable (compose_callback c fn)) tt st
  = match fn st with
    | Normal x st1 => invoke_callback (as_invocable c) x st1
    | Thrown e st1 => noexcept (error (cb_signal c) (wrapped e)) st1
    | Terminated st1 => Terminated st1
    | Blocked st1 => Blocked st1
    | Undefined => Undefined
    | OutOfFuel => OutOfFuel
    end
  /\ noexcept (done (cb_signal (compose_callback c fn))) st
     = noexcept (done (cb_signal c)) st
  /\ forall ep,
       noexcept (error (cb_signal (compose_callback c fn)) ep) st
       = noexcept (error (cb_signal c) ep) st.
Proof.
  split; [|split].
  - apply invoke_composed_callback.
  - cbn. by rewrite !noexcept_idem.
  - intros ep. cbn. by rewrite !noexcept_idem.
Qed.

Lemma bulk_loop_pure {W State} (op : nat -> State -> M W State)
    (g : nat -> State -> State) (st : W) count : forall i shared,
  (forall j s, i <= j < i + count -> op j s st = Normal (g j s) st) ->
  bulk_loop op i count shared st
  = Normal (foldl (fun s j => g j s) shared (seq i count)) st.
Proof.
  induction count as [|count IH]; intros i shared Hop; [done|].
  cbn. unfold bind. rewrite Hop by lia. apply IH.
  intros j s Hj. apply Hop. lia.
Qed.

(** X19. [bulk_execute] on the inline executor, which has no
    [bulk_execute] of its own: when the state factory returns [s0] and the
    operations up to [n] return, the continuation is invoked, through
    [invoke_callback], on the state that results from applying the
    operations for the indices 0, 1, ..., n - 1, in that order, to [s0]. *)
Theorem bulk_execute_inline_folds {W State}
    (op : nat -> State -> M W State) (g : nat -> State -> State)
    (n : nat) (sf : M W State) (s0 : State) (c : callback W State) (st : W) :
  sf st = Normal s0 st ->
  (forall j s, j < n -> op j s st = Normal (g j s) st) ->
  bulk_execute inline_executor None op n sf c st
  = invoke_callback (as_invocable c)
      (foldl (fun s j => g j s) s0 (seq 0 n)) st.
Proof.
  intros Hsf Hop. unfold bulk_execute, inline_executor. cbn [execute_member].
  unfold inline_executor_execute.
  rewrite (invoke_composed_callback c (do shared <- sf ; bulk_loop op 0 n shared) st).
  unfold bind. rewrite Hsf, (bulk_loop_pure op g st n 0 s0); [done|].
  intros j s Hj. apply Hop. lia.
Qed.

(** X20. When the operation of index [k] throws, the operations after it
    are not called and the continuation is not invoked: its error channel
    gets the wrapped exception. *)
Theorem bulk_execute_inline_stops_at_exception {W State}
    (op : nat -> State -> M W State) (g : nat -> State -> State)
    (n k : nat) (sf : M W State) (s0 : State) (c : callback W State)
    (st st' : W) (e : exception) :
  k < n ->
  sf st = Normal s0 st ->
  (forall j s, j < k -> op j s st = Normal (g j s) st) ->
  op k (foldl (fun s j => g j s) s0 (seq 0 k)) st = Thrown e st' ->
  bulk_execute inline_executor None op n sf c st
  = noexcept (error (cb_signal c) (wrapped e)) st'.
Proof.
  intros Hk Hsf Hop Hthrow. unfold bulk_execute, inline_executor.
  cbn [execute_member]. unfold inline_executor_execute.
  rewrite (invoke_composed_callback c (do shared <- sf ; bulk_loop op 0 n shared) st).
  unfold bind. rewrite Hsf.
  assert (forall count i shared,
            i + count = n -> i <= k ->
            shared = foldl (fun s j => g j s) s0 (seq 0 i) ->
            bulk_loop op i count shared st = Thrown e st') as Hloop.
  { induction count as [|count IH]; intros i shared Hn Hi ->; [lia|].
    cbn. unfold bind. destruct (decide (i = k)) as [->|Hne].
    - by rewrite Hthrow.
    - rewrite Hop by lia. apply IH; [lia|lia|].
      by rewrite seq_S, foldl_app. }
  by rewrite (Hloop n 0 s0) by first [done|lia].
Qed.

(** X21. The three shapes of [submit], at the inline sender and the inline
    executor, all come to [invoke_callback] of the callback: on the stored
    values for a sender, on no argument for an executor with a nullary
    callback, and on the executor itself for a callback that expects a
    sub-executor.  So in each the callback is invoked once, inline, and an
    exception goes, wrapped, to its error channel. *)
Theorem submit_is_invoke_callback {W Args} (an : Args)
    (c : callback W Args) (c0 : callback W unit)
    (c1 : callback W (executor W)) (st : W) :
  submit_sender (inline_sender an) c st
  = invoke_callback (as_invocable c) an st
  /\ submit_executor inline_executor c0 st
     = invoke_callback (as_invocable c0) tt st
  /\ submit_with_subex inline_executor c1 st
     = invoke_callback (as_invocable c1) inline_executor st.
Proof.
  split; [|split].
  - unfold submit_sender, inline_sender. cbn [submit_is_noexcept submit_member].
    unfold try_invoke_callback. rewrite noexcept_idem.
    unfold invoke at 1. cbn [is_nothrow_invocable call_operator].
    rewrite invoke_callback_callback.
    unfold noexcept at 1, try_catch, routed.
    destruct (invoke (as_invocable c) an st) as [a st'|e st'|st'|st'| |];
      try done.
    change (make_callback_invocation_error (Some e)) with (wrapped e).
    pose proof (noexcept_not_thrown (error (cb_signal c) (wrapped e)) st').
    by destruct (noexcept _ st').
  - unfold submit_executor, inline_executor. cbn [execute_member].
    unfold inline_executor_execute, invoke_callback. cbn [signals as_invocable].
    by rewrite noexcept_idem.
  - unfold submit_with_subex. cbn [execute_member inline_executor].
    unfold inline_executor_execute.
    rewrite noexcept_id.
    + by rewrite (invoke_composed_callback c1 (ret inline_executor) st).
    + unfold invoke_callback. cbn [signals as_invocable].
      apply noexcept_not_thrown.
Qed.

(** X22. On the inline executor, a callable wrapped in
    [terminate_on_error] runs as it is when it returns, and its exception
    calls std::terminate: it is delivered to the error channel, which
    terminates the process. *)
Theorem terminate_on_error_inline {W} (fn : unit -> M W unit) (st : W) :
  execute inline_executor (as_invocable (terminate_on_error fn false)) st
  = match fn tt st with
    | Thrown _ st' => Terminated st'
    | r => r
    end.
Proof.
  unfold execute, inline_executor. cbn [execute_member].
  unfold inline_executor_execute. rewrite invoke_callback_callback.
  unfold invoke, routed. cbn. by destruct (fn tt st).
Qed.

(** X23. Two [transform_sender] adapters in a row: submitting a receiver
    hands the inner sender a receiver that, on a value, applies the first
    function and then the second and passes the result on, and that passes
    an error or done on as it is.  An exception of a function leaves
    [set_value] towards the inner sender; the receiver is not called. *)
Theorem transform_sender_pipeline {V V1 V2 E W}
    (inner : receiver V E W -> M W unit)
    (f : V -> M W V1) (g : V1 -> M W V2) (r : receiver V2 E W) (st : W) :
  (forall v, (forall r', inner r' = set_value r' v) ->
     transform_submit
       (TransformSender (transform_submit (TransformSender inner f)) g) r st
     = (do x <- f v ; do y <- g x ; set_value r y) st)
  /\ (forall e, (forall r', inner r' = set_error r' e) ->
        transform_submit
          (TransformSender (transform_submit (TransformSender inner f)) g) r st
        = set_error r e st)
  /\ ((forall r', inner r' = set_done r') ->
      transform_submit
        (TransformSender (transform_submit (TransformSender inner f)) g) r st
      = set_done r st)
  /\ (forall v e st', (forall r', inner r' = set_value r' v) ->
        f v st = Thrown e st' ->
        transform_submit
          (TransformSender (transform_submit (TransformSender inner f)) g) r st
        = Thrown e st').
Proof.
  unfold transform_submit. cbn [inner_ func_].
  split; [|split; [|split]].
  - intros v ->. cbn. unfold bind. by destruct (f v st).
  - by intros e ->.
  - by intros ->.
  - intros v e st' -> Hf. cbn. unfold bind. by rewrite Hf.
Qed.

(** Operations on a counter: add the index. *)
Definition add_index {W} (j : nat) (s : nat) : M W nat := ret (s + j).

(** The same, except that the operation of index 2 throws. *)
Definition add_index_fails_at_2 {W} (j : nat) (s : nat) : M W nat :=
  if decide (j = 2) then throw (user_exception 2) else ret (s + j).

(** A continuation that records the state it is given, and 99 for an
    error. *)
Definition logging_callback : callback (list nat) nat :=
  Callback (fun s => modify (fun log => log ++ [s])) false
    (CallbackSignal (ret tt) (fun _ => modify (fun log => log ++ [99]))).

Lemma bulk_execute_inline_folds_witness :
  bulk_execute inline_executor None add_index 4 (ret 0) logging_callback []
  = invoke_callback (as_invocable logging_callback)
      (foldl (fun s j => s + j) 0 (seq 0 4)) [].
Proof.
  apply (bulk_execute_inline_folds add_index (fun j s => s + j)).
  - reflexivity.
  - reflexivity.
Defined.

Lemma bulk_execute_inline_stops_at_exception_witness :
  bulk_execute inline_executor None add_index_fails_at_2 4 (ret 0)
    logging_callback []
  = noexcept (error (cb_signal logging_callback) (wrapped (user_exception 2))) [].
Proof.
  apply (bulk_execute_inline_stops_at_exception add_index_fails_at_2
           (fun j s => s + j) 4 2 (ret 0) 0 logging_callback [] []
           (user_exception 2)).
  - lia.
  - reflexivity.
  - intros j s Hj. unfold add_index_fails_at_2.
    destruct (decide (j = 2)); [lia|done].
  - reflexivity.
Defined.

Example bulk_execute_runs :
  bulk_execute inline_executor None add_index 4 (ret 0) logging_callback []
  = Normal tt [6]
  /\ bulk_execute inline_executor None add_index_fails_at_2 4 (ret 0)
       logging_callback []
     = Normal tt [99].
Proof. split; reflexivity. Qed.

End AllPropCompose.

(* ===================================================================== *)
(** ** The coroutine that changes threads                                 *)
(* ===================================================================== *)

Module ThreadHandoffProofs.
Import ThreadHandoff.

(** The thread a coroutine is on after the statements [body], started on
    [on]. *)
Definition thread_after (on : thread_id) (body : list stmt) : thread_id :=
  foldl (fun on s => match s with co_await t => Some t | _ => on end) on body.

(** What the statements [body] print, started on [on]: each message with
    the thread awaited last before it. *)
Fixpoint printed_by (on : thread_id) (body : list stmt)
    : list (thread_id * string) :=
  match body with
  | [] => []
  | co_await t :: rest => printed_by (Some t) rest
  | display msg :: rest => (on, msg) :: printed_by on rest
  | set_done :: rest => printed_by on rest
  end.

Definition is_set_done (s : stmt) : bool :=
  match s with set_done => true | _ => false end.

(** The threads a body awaits, in order. *)
Fixpoint awaited (body : list stmt) : list nat :=
  match body with
  | [] => []
  | co_await t :: rest => t :: awaited rest
  | _ :: rest => awaited rest
  end.

(** Every awaited thread is one of the [n] threads. *)
Definition awaits_below (n : nat) (body : list stmt) : Prop :=
  Forall (fun s => match s with co_await t => t < n | _ => True end) body.

Lemma printed_by_app on l1 l2 :
  printed_by on (l1 ++ l2)
  = printed_by on l1 ++ printed_by (thread_after on l1) l2.
Proof.
  revert on. induction l1 as [|[t|msg|] l1 IH]; intros on; cbn; [done|..].
  - apply IH.
  - f_equal. apply IH.
  - apply IH.
Qed.

Lemma thread_after_app on l1 l2 :
  thread_after on (l1 ++ l2) = thread_after (thread_after on l1) l2.
Proof. apply foldl_app. Qed.

Lemma addAwaiter_idle n t awaiter out d :
  t < n ->
  addAwaiter t awaiter (State (replicate n []) out d)
  = State (<[t := [awaiter]]> (replicate n [])) out d.
Proof.
  intros Ht. unfold addAwaiter. cbn.
  by rewrite lookup_replicate_2.
Qed.

(** How far a coroutine with body [body] has come in state [st]:
    [executed] has run, [pending] is left, and the coroutine is either
    over or in the queue of the thread it awaited last. *)
Definition progress (n : nat) (body : list stmt) (st : state)
    (executed pending : list stmt) : Prop :=
  body = executed ++ pending
  /\ output st = printed_by None executed
  /\ done st = existsb is_set_done executed
  /\ ((pending = [] /\ m_awaiters st = replicate n [])
      \/ exists t, thread_after None executed = Some t /\ t < n
                   /\ m_awaiters st = <[t := [pending]]> (replicate n [])).

Lemma resume_progress n body pending : forall executed on out d,
  body = executed ++ pending ->
  awaits_below n pending ->
  on = thread_after None executed ->
  out = printed_by None executed ->
  d = existsb is_set_done executed ->
  exists executed' pending',
    progress n body (resume on pending (State (replicate n []) out d))
      executed' pending'.
Proof.
  induction pending as [|[t|msg|] pending IH];
    intros executed on out d Hbody Hvalid Hon Hout Hd.
  - exists executed, []. split; [done|]. split; [done|]. split; [done|].
    by left.
  - apply Forall_cons in Hvalid as [Ht Hvalid].
    exists (executed ++ [co_await t]), pending. cbn [resume].
    rewrite addAwaiter_idle by done.
    split; [by rewrite <- (assoc_L (++))|]. split; [|split].
    + cbn. by rewrite printed_by_app, app_nil_r.
    + cbn. by rewrite existsb_app, orb_false_r.
    + right. exists t. by rewrite thread_after_app.
  - apply Forall_cons in Hvalid as [_ Hvalid]. cbn [resume]. cbn.
    apply (IH (executed ++ [display msg])); [|done|..].
    + by rewrite <- (assoc_L (++)).
    + by rewrite thread_after_app.
    + rewrite printed_by_app. cbn. by subst.
    + by rewrite existsb_app, orb_false_r.
  - apply Forall_cons in Hvalid as [_ Hvalid]. cbn [resume]. cbn.
    apply (IH (executed ++ [set_done])); [|done|..].
    + by rewrite <- (assoc_L (++)).
    + by rewrite thread_after_app.
    + rewrite printed_by_app. cbn. by rewrite app_nil_r.
    + rewrite existsb_app. cbn. by rewrite orb_true_r.
Qed.

Lemma run_iteration_progress n body st i executed pending :
  awaits_below n body ->
  progress n body st executed pending ->
  exists executed' pending', progress n body (run_iteration i st) executed' pending'.
Proof.
  intros Hvalid (Hbody & Hout & Hd & Hwhere).
  destruct st as [aw out d]. cbn in *.
  destruct Hwhere as [[-> ->]|(t & Ht & Hlt & ->)].
  - exists executed, []. unfold run_iteration. cbn.
    destruct (replicate n [] !! i) as [queue|] eqn:Hi.
    + apply lookup_replicate in Hi as [-> _]. cbn.
      split; [done|]. split; [done|]. split; [done|]. by left.
    + split; [done|]. split; [done|]. split; [done|]. by left.
  - unfold run_iteration. cbn.
    destruct (decide (i = t)) as [->|Hne].
    + rewrite list_lookup_insert_eq by by rewrite length_replicate.
      cbn. rewrite list_insert_insert_eq.
      rewrite (list_insert_id (replicate n [])) by by apply lookup_replicate_2.
      apply (resume_progress n body pending executed); try done.
      rewrite Hbody in Hvalid. by apply Forall_app in Hvalid as [_ ?].
    + rewrite list_lookup_insert_ne by done.
      exists executed, pending.
      destruct (replicate n [] !! i) as [queue|] eqn:Hi.
      * apply lookup_replicate in Hi as [-> _]. cbn.
        split; [done|]. split; [done|]. split; [done|]. right. by exists t.
      * split; [done|]. split; [done|]. split; [done|]. right. by exists t.
Qed.

Lemma run_threads_progress n body schedule :
  awaits_below n body ->
  exists executed pending,
    progress n body (run_threads schedule (resume None body (initial n)))
      executed pending.
Proof.
  intros Hvalid. unfold run_threads.
  destruct (resume_progress n body body [] None [] false)
    as (ex0 & pe0 & H0); try done.
  fold (initial n) in H0. revert H0.
  generalize (resume None body (initial n)). revert ex0 pe0.
  induction schedule as [|i schedule IH]; intros ex0 pe0 st H0.
  - by exists ex0, pe0.
  - cbn.
    destruct (run_iteration_progress n body st i ex0 pe0 Hvalid H0)
      as (ex1 & pe1 & H1).
    by apply (IH ex1 pe1).
Qed.

(** X24. A coroutine that awaits [Thread] objects runs each of its steps
    on the thread it awaited last, in program order, whatever the order in
    which the threads run: at every moment what has been printed (with the
    printing thread) and the flag [done] are those of an initial part of
    the body, each message attributed to the thread awaited last before
    it. *)
Theorem steps_run_on_awaited_threads (n : nat) (body : list stmt)
    (schedule : list nat) :
  awaits_below n body ->
  exists executed pending,
    body = executed ++ pending
    /\ output (run_threads schedule (resume None body (initial n)))
       = printed_by None executed
    /\ done (run_threads schedule (resume None body (initial n)))
       = existsb is_set_done executed.
Proof.
  intros Hvalid.
  destruct (run_threads_progress n body schedule Hvalid)
    as (executed & pending & Hbody & Hout & Hd & _).
  by exists executed, pending.
Qed.

(** X25. In the demonstration, whatever the order in which the two threads
    run, the flag [done] that ends the loop of [main] is set only when all
    three lines have been printed: the first by the main thread, the second
    by the thread of [a], the third by the thread of [b]. *)
Theorem done_means_all_printed (schedule : list nat) :
  done (run_threads schedule main_before_loop) = true ->
  output (run_threads schedule main_before_loop)
  = [(None, "This is the main thread"%string);
     (Some 0, "This is the thread1"%string);
     (Some 1, "This is the thread2"%string)].
Proof.
  unfold main_before_loop.
  destruct (run_threads_progress 2
              (display "This is the main thread" :: f 0 1) schedule)
    as (executed & pending & Hbody & -> & -> & _); [repeat constructor|].
  unfold f in Hbody.
  repeat (destruct executed as [|? executed];
          [cbn in Hbody; subst pending; cbn; try discriminate
          |injection Hbody as <- Hbody]);
    try done.
  all: destruct executed; discriminate || (cbn; done).
Qed.

Lemma resume_awaited n pending : forall on out d,
  awaits_below n pending ->
  run_threads (awaited pending) (resume on pending (State (replicate n []) out d))
  = State (replicate n []) (out ++ printed_by on pending)
      (d || existsb is_set_done pending).
Proof.
  induction pending as [|[t|msg|] pending IH]; intros on out d Hvalid.
  - cbn. by rewrite app_nil_r, orb_false_r.
  - apply Forall_cons in Hvalid as [Ht Hvalid].
    cbn [resume awaited]. rewrite addAwaiter_idle by done.
    unfold run_threads. cbn [foldl]. fold (run_threads (awaited pending)).
    unfold run_iteration. cbn [m_awaiters output done].
    rewrite list_lookup_insert_eq by by rewrite length_replicate.
    cbn [pop]. rewrite list_insert_insert_eq.
    rewrite (list_insert_id (replicate n [])) by by apply lookup_replicate_2.
    apply (IH (Some t) out d Hvalid).
  - apply Forall_cons in Hvalid as [_ Hvalid].
    cbn [resume awaited printed_by existsb is_set_done m_awaiters output done].
    rewrite (IH on _ d Hvalid). by rewrite <- (assoc_L (++)).
  - apply Forall_cons in Hvalid as [_ Hvalid].
    cbn [resume awaited printed_by existsb is_set_done m_awaiters output done].
    rewrite (IH on out true Hvalid). by rewrite orb_true_r.
Qed.

(** X26. The coroutine runs to its end when the threads it awaits run in
    the order it awaits them: then every message has been printed, on its
    thread, the flag is set when the body sets it, and no awaiter is
    left. *)
Theorem coroutine_completes (n : nat) (body : list stmt) :
  awaits_below n body ->
  run_threads (awaited body) (resume None body (initial n))
  = State (replicate n []) (printed_by None body) (existsb is_set_done body).
Proof. intros Hvalid. unfold initial. by rewrite resume_awaited. Qed.

Lemma steps_run_on_awaited_threads_witness :
  exists executed pending,
    display "This is the main thread" :: f 0 1 = executed ++ pending
    /\ output (run_threads [1; 0; 0] main_before_loop)
       = printed_by None executed
    /\ done (run_threads [1; 0; 0] main_before_loop)
       = existsb is_set_done executed.
Proof.
  apply (steps_run_on_awaited_threads 2
           (display "This is the main thread" :: f 0 1) [1; 0; 0]).
  repeat constructor.
Defined.

Lemma done_means_all_printed_witness :
  output (run_threads [0; 1] main_before_loop)
  = [(None, "This is the main thread"%string);
     (Some 0, "This is the thread1"%string);
     (Some 1, "This is the thread2"%string)].
Proof. apply (done_means_all_printed [0; 1]). reflexivity. Defined.

Lemma coroutine_completes_witness :
  run_threads [0; 1] main_before_loop
  = State [[]; []]
      [(None, "This is the main thread"%string);
       (Some 0, "This is the thread1"%string);
       (Some 1, "This is the thread2"%string)] true.
Proof.
  apply (coroutine_completes 2 (display "This is the main thread" :: f 0 1)).
  repeat constructor.
Defined.

End ThreadHandoffProofs.

(* ===================================================================== *)
(** ** simple_execution_context: the queue as a stack, and its cycles     *)
(* ===================================================================== *)

Module SimpleExecutionContextEdges.
Import SimpleExecutionContext SimpleExecutionContextProofs.

(** X27. [drain] on the linked nodes is a stack machine: when no node is
    enqueued twice, the nodes it has executed after any number of
    iterations are those a list used as a stack gives, where executing a
    node pushes what its continuation enqueues. *)
Theorem drain_is_a_stack (resume : ptr -> list ptr) (scheduled : list ptr)
    (fuel : nat) :
  NoDup scheduled ->
  (forall x, NoDup (resume x)) ->
  (forall x y z, z ∈ resume x -> z ∈ resume y -> x = y) ->
  (forall x z, z ∈ resume x -> z ∉ scheduled) ->
  executed_of
    (drain resume fuel (foldl (fun c t => enqueue t c) empty_context scheduled) [])
  = pops resume fuel (reverse scheduled).
Proof.
  intros Hnd H1 H2 H3.
  rewrite (drain_pops resume scheduled H1 H2 H3 fuel _ (reverse scheduled) [] []).
  - done.
  - split; [by apply NoDup_reverse|]. split.
    + intros y _. apply not_elem_of_nil.
    + intros y [Hy%elem_of_reverse_inv|Hy%elem_of_nil]; [by left|done].
  - apply next_enqueue_all; [apply represents_empty|done].
Qed.

(** X28. A continuation that enqueues its own node again when it is
    resumed keeps [drain] from returning: every iteration executes that
    node and leaves the context as it was, and the nodes queued below it
    are never reached. *)
Theorem drain_never_returns_when_rescheduled (resume : ptr -> list ptr)
    (t : ptr) (ctx : simple_execution_context) (fuel : nat) :
  resume t = [t] ->
  forall executed,
    drain resume fuel (enqueue t ctx) executed
    = still_draining (executed ++ replicate fuel t) (enqueue t ctx).
Proof.
  intros Hres. induction fuel as [|fuel IH]; intros executed.
  - cbn. by rewrite app_nil_r.
  - cbn. rewrite lookup_insert_eq. unfold execute. rewrite Hres. cbn.
    unfold enqueue at 1. cbn. rewrite insert_insert_eq.
    change (Context (Some t) (<[t := head ctx]> (next ctx))) with (enqueue t ctx).
    rewrite IH. by rewrite <- (assoc_L (++)).
Qed.

(** X29. Enqueueing a node that is already at the head links it to
    itself: [drain] then executes this node in every iteration and never
    returns, and the nodes that were queued before are no longer
    reachable. *)
Theorem enqueue_twice_cycles (resume : ptr -> list ptr)
    (t : ptr) (ctx : simple_execution_context) (fuel : nat) :
  resume t = [] ->
  next (enqueue t (enqueue t ctx)) !! t = Some (Some t)
  /\ forall executed,
       drain resume fuel (enqueue t (enqueue t ctx)) executed
       = still_draining (executed ++ replicate fuel t)
           (enqueue t (enqueue t ctx)).
Proof.
  intros Hres. split; [cbn; by rewrite lookup_insert_eq|].
  induction fuel as [|fuel IH]; intros executed.
  - cbn. by rewrite app_nil_r.
  - cbn. rewrite lookup_insert_eq. unfold execute. rewrite Hres. cbn.
    change (Context (Some t) (<[t := Some t]> (<[t := head ctx]> (next ctx))))
      with (enqueue t (enqueue t ctx)).
    rewrite IH. by rewrite <- (assoc_L (++)).
Qed.

(** A continuation that awaits [schedule()] again through the same node. *)
Definition reschedules_itself (t : ptr) : list ptr := [t].

(** Continuations that enqueue nothing. *)
Definition enqueues_nothing (t : ptr) : list ptr := [].

#[local] Set Warnings "-clear-no-such-hyp".

Lemma drain_is_a_stack_witness :
  executed_of
    (drain resume_2_schedules_3 5
       (foldl (fun c t => enqueue t c) empty_context [1; 2]%positive) [])
  = pops resume_2_schedules_3 5 (reverse [1; 2]%positive).
Proof.
  apply (drain_is_a_stack resume_2_schedules_3 [1; 2]%positive 5).
  - repeat constructor; set_solver.
  - intros x. unfold resume_2_schedules_3.
    destruct (decide _); repeat constructor; set_solver.
  - intros x y z. unfold resume_2_schedules_3.
    destruct (decide (x = _)), (decide (y = _)); set_solver.
  - intros x z. unfold resume_2_schedules_3.
    destruct (decide _); set_solver.
Defined.

Lemma drain_never_returns_when_rescheduled_witness :
  drain reschedules_itself 3
    (enqueue 2%positive (enqueue 1%positive empty_context)) []
  = still_draining [2; 2; 2]%positive
      (enqueue 2%positive (enqueue 1%positive empty_context)).
Proof.
  apply (drain_never_returns_when_rescheduled reschedules_itself 2%positive
           (enqueue 1%positive empty_context) 3 eq_refl []).
Defined.

Lemma enqueue_twice_cycles_witness :
  drain enqueues_nothing 3
    (enqueue 2%positive (enqueue 2%positive (enqueue 1%positive empty_context))) []
  = still_draining [2; 2; 2]%positive
      (enqueue 2%positive (enqueue 2%positive (enqueue 1%positive empty_context))).
Proof.
  apply (proj2 (enqueue_twice_cycles enqueues_nothing 2%positive
                  (enqueue 1%positive empty_context) 3 eq_refl) []).
Defined.

End SimpleExecutionContextEdges.
